(** * Verification of the python-disruptor examples

    Shallow embeddings of
    - [BatchJsonConsumer] (src/batch_json_example.py),
    - [FaultTolerantBatchConsumer] (src/fault_tolerant_example.py),
    - the [measure_performance] decorator (src/benchmark.py),
    - the Disruptor bus the examples are written against (imported from
      the [disruptor] package, modelled from its specification). *)

From Stdlib Require Import ZArith Lia.
From Stdlib Require Import QArith.
From stdpp Require Import base list.
Import ListNotations.
Open Scope Z_scope.

(** Python's slices [l[:n]] and [l[n:]] for an int [n]: a negative [n]
    counts from the end. Both consumers cut their buffer with them. *)
Module Py.
Section Slices.
Variable A : Type.

Definition py_take (n : Z) (l : list A) : list A :=
  if 0 <=? n then take (Z.to_nat n) l
  else take (Z.to_nat (Z.of_nat (length l) + n)) l.
Definition py_drop (n : Z) (l : list A) : list A :=
  if 0 <=? n then drop (Z.to_nat n) l
  else drop (Z.to_nat (Z.of_nat (length l) + n)) l.

End Slices.
Arguments py_take {A}. Arguments py_drop {A}.
End Py.

(* ===================================================================== *)
(** ** BatchJsonConsumer (src/batch_json_example.py) *)
(* ===================================================================== *)

Module BatchJson.
Import Py.

(** What [_process_batch] can raise: the DataFrame conversion
    ([pl.from_dicts], the four [unnest] calls, e.g. for an item without a
    ['user'] key, and the ['amount'] sum), the Parquet write, the report
    [print]. *)
Inductive exn := ConversionError | WriteError | PrintError.

(** What the outside world does during one invocation of [_process_batch]:
    whether the conversion, the write and the print succeed. *)
Record attempt_env := mkAttemptEnv {
  convert_ok : bool;
  write_ok : bool;
  print_ok : bool
}.

(** How a method ends: it returns, it raises, or (a [while] loop run
    with fuel) it is still running when the fuel is used up. *)
Inductive status := Returned | Raised (e : exn) | Running.

Section BatchJson.

(** The JSON objects are opaque to the buffering logic. *)
Variable A : Type.

(** The behaviour of the n-th invocation of [_process_batch]. *)
Variable env : nat -> attempt_env.

(** The fields of a [BatchJsonConsumer] that the methods touch.
    [written] is the sequence of batches written as Parquet files, in
    order; [passed] (a ghost field) is the sequence of batches handed to
    [_process_batch], in order, so its length numbers the invocations. *)
Record consumer := mkConsumer {
  batch_size : Z;
  processed_count : Z;
  batch_buffer : list A;
  file_counter : Z;
  written : list (list A);
  passed : list (list A)
}.

(** [__init__]: counters at 0, empty buffer. *)
Definition init (batch_size0 : Z) : consumer :=
  mkConsumer batch_size0 0 [] 0 [] [].

Definition set_buffer (c : consumer) (buf : list A) : consumer :=
  mkConsumer (batch_size c) (processed_count c) buf (file_counter c) (written c) (passed c).

(** [_process_batch(batch)]: the random sleep has no observable effect;
    the conversion may raise; [self.file_counter += 1]; the write may
    raise, with no rollback of [file_counter]; [processed_count +=
    len(batch)]; the print may raise. *)
Definition _process_batch (c : consumer) (batch : list A) : status * consumer :=
  let e := env (length (passed c)) in
  let c0 := mkConsumer (batch_size c) (processed_count c) (batch_buffer c)
                       (file_counter c) (written c) (passed c ++ [batch]) in
  if negb (convert_ok e) then (Raised ConversionError, c0) else
  let c1 := mkConsumer (batch_size c0) (processed_count c0) (batch_buffer c0)
                       (file_counter c0 + 1) (written c0) (passed c0) in
  if negb (write_ok e) then (Raised WriteError, c1) else
  let c2 := mkConsumer (batch_size c1) (processed_count c1 + Z.of_nat (length batch))
                       (batch_buffer c1) (file_counter c1) (written c1 ++ [batch]) (passed c1) in
  if negb (print_ok e) then (Raised PrintError, c2) else (Returned, c2).

(** The [while len(self.batch_buffer) >= self.batch_size] loop, for at
    most [fuel] tests of the condition; an exception of [_process_batch]
    leaves the loop and the method. *)
Fixpoint drain (fuel : nat) (c : consumer) : status * consumer :=
  match fuel with
  | O => (Running, c)
  | S fuel' =>
      if batch_size c <=? Z.of_nat (length (batch_buffer c)) then
        let batch := py_take (batch_size c) (batch_buffer c) in
        let c' := set_buffer c (py_drop (batch_size c) (batch_buffer c)) in
        match _process_batch c' batch with
        | (Returned, c'') => drain fuel' c''
        | r => r
        end
      else (Returned, c)
  end.

(** [consume(elements)]: extend the buffer, then process complete batches. *)
Definition consume (fuel : nat) (c : consumer) (elements : list A) : status * consumer :=
  drain fuel (set_buffer c (batch_buffer c ++ elements)).

(** [close()]: flush the remaining items as one last batch; the buffer
    is emptied only if [_process_batch] returns. *)
Definition close (c : consumer) : status * consumer :=
  match batch_buffer c with
  | [] => (Returned, c)
  | buf =>
      match _process_batch c buf with
      | (Returned, c') => (Returned, set_buffer c' [])
      | r => r
      end
  end.

(** The [consume] calls the bus makes, one per delivered list of
    elements, with the outcome of each: an exception goes to the bus's
    error handler and the bus carries on with the next call; a call that
    never returns stops the worker. *)
Fixpoint consume_all (fuel : nat) (c : consumer) (calls : list (list A)) :
    list status * consumer :=
  match calls with
  | [] => ([], c)
  | el :: rest =>
      let '(st, c1) := consume fuel c el in
      match st with
      | Running => ([Running], c1)
      | _ => let '(sts, c2) := consume_all fuel c1 rest in (st :: sts, c2)
      end
  end.

(** The invocations so far whose conversion succeeded and whose write
    failed. *)
Definition failed_writes (c : consumer) : nat :=
  length (List.filter (fun n => convert_ok (env n) && negb (write_ok (env n)))
                 (seq 0 (length (passed c)))).

(** The counters against the files: [processed_count] counts the items
    written, [file_counter] the files written and the failed writes. *)
Definition counters_ok (c : consumer) : Prop :=
  processed_count c = Z.of_nat (length (concat (written c))) /\
  file_counter c = Z.of_nat (length (written c) + failed_writes c).

(** The invariant kept by a sequence of [consume] calls that return,
    where [total] is the concatenation of all elements consumed so far. *)
Definition consume_inv (B : Z) (total : list A) (c : consumer) : Prop :=
  batch_size c = B /\
  Forall (fun b => Z.of_nat (length b) = B) (written c) /\
  passed c = written c /\
  concat (written c) ++ batch_buffer c = total /\
  processed_count c = Z.of_nat (length (concat (written c))) /\
  Z.of_nat (length (batch_buffer c)) < B.

End BatchJson.
Arguments consume_inv {A}.
Arguments batch_size {A}. Arguments processed_count {A}.
Arguments batch_buffer {A}. Arguments file_counter {A}. Arguments written {A}.
Arguments passed {A}. Arguments mkConsumer {A}.
Arguments init {A}. Arguments consume {A} env fuel c elements. Arguments close {A} env c.
Arguments consume_all {A} env fuel c calls. Arguments drain {A} env fuel c.
Arguments _process_batch {A} env c batch.
Arguments set_buffer {A}. Arguments failed_writes {A} env c.
Arguments counters_ok {A} env c.

(** A world where every conversion, write and print succeeds. *)
Definition all_ok : nat -> attempt_env := fun _ => mkAttemptEnv true true true.

(** A world whose first conversion raises. *)
Definition convert_fails_first : nat -> attempt_env :=
  fun n => mkAttemptEnv (negb (Nat.eqb n 0)) true true.

(** The last part of C3 as stated, for one run: after the [consume]
    calls and a [close()] that returns, the buffer is empty and
    [processed_count] is the number of consumed elements. *)
Definition c3_as_stated {A : Type} (env : nat -> attempt_env) (B : Z) (fuel : nat)
    (calls : list (list A)) : Prop :=
  let '(_, c1) := consume_all env fuel (init B) calls in
  let '(st, c2) := close env c1 in
  st = Returned ->
  batch_buffer c2 = [] /\ processed_count c2 = Z.of_nat (length (concat calls)).
End BatchJson.

(* ===================================================================== *)
(** ** FaultTolerantBatchConsumer (src/fault_tolerant_example.py) *)
(* ===================================================================== *)

Module FaultTolerant.

(** Python exceptions that can occur in the consumer. *)
Inductive exn :=
  | SimulatedError        (* "Simulated processing error" *)
  | DataFrameError        (* pl.from_dicts / unnest failed *)
  | WriteError            (* df.write_parquet failed *)
  | ValueError            (* time.sleep(negative) *)
  | OverflowError         (* time.sleep(delay out of its nanosecond range) *)
  | RecursionError        (* the interpreter's recursion limit *)
  | OSError.              (* filesystem failure (open, glob) *)

(** What the outside world does during one invocation of [_process_batch]:
    [random_fail] is [random.random() < 0.05]; the other fields say
    whether the DataFrame conversion, the statistics, the Parquet write
    and the checkpoint write succeed. *)
Record attempt_env := mkAttemptEnv {
  random_fail : bool;
  df_ok : bool;
  stats_ok : bool;
  write_ok : bool;
  save_ok : bool
}.

Section FaultTolerant.
Variable A : Type.

(** The outside world: the behaviour of the n-th [_process_batch]
    invocation, whether the n-th DLQ file write succeeds, and whether
    [self.dlq_dir.glob] succeeds in [close]. *)
Variable proc_env : nat -> attempt_env.
Variable dlq_ok : nat -> bool.

(** The recursion limit: [_process_batch_with_retry] calls itself once
    per retry, and the level with [retry_count = rc] fits under the
    interpreter's limit when [rc <= rec_room]. *)
Variable rec_room : Z.
Variable glob_ok : bool.

(** The consumer's fields, the files it wrote ([parquet_files],
    [checkpoints], [dlq_files]) and two ghost counters: [attempts] counts
    the invocations of [_process_batch], [dlq_attempts] those of the DLQ
    file write. *)
Record ft := mkFt {
  batch_size : Z;
  processed_count : Z;
  error_count : Z;
  retry_count : Z;
  batch_buffer : list A;
  file_counter : Z;
  max_retries : Z;
  retry_delay : Q;
  enable_dlq : bool;
  parquet_files : list (list A);
  checkpoints : list (Z * Z);
  dlq_files : list (list A * exn);
  attempts : nat;
  dlq_attempts : nat
}.

(** State and exceptions: a method runs on the consumer and either
    returns or raises. *)
Inductive result (X : Type) := Ok (x : X) | Raise (e : exn).
Arguments Ok {X}. Arguments Raise {X}.

Definition M (X : Type) := ft -> result X * ft.

Definition ret {X} (x : X) : M X := fun s => (Ok x, s).
Definition raise {X} (e : exn) : M X := fun s => (Raise e, s).
Definition bind {X Y} (m : M X) (k : X -> M Y) : M Y :=
  fun s => match m s with
           | (Ok x, s') => k x s'
           | (Raise e, s') => (Raise e, s')
           end.
(** [try: m except Exception as e: h(e)] *)
Definition try_except {X} (m : M X) (h : exn -> M X) : M X :=
  fun s => match m s with
           | (Ok x, s') => (Ok x, s')
           | (Raise e, s') => h e s'
           end.
Definition modify (f : ft -> ft) : M unit := fun s => (Ok tt, f s).
Definition gets {X} (f : ft -> X) : M X := fun s => (Ok (f s), s).

Notation "x <- m ;; k" := (bind m (fun x => k)) (at level 100, m at next level, right associativity).
Notation "m ;;; k" := (bind m (fun _ => k)) (at level 100, right associativity).

(** Field updates. *)
Definition upd_processed (f : Z -> Z) (s : ft) : ft :=
  mkFt (batch_size s) (f (processed_count s)) (error_count s) (retry_count s)
       (batch_buffer s) (file_counter s) (max_retries s) (retry_delay s) (enable_dlq s)
       (parquet_files s) (checkpoints s) (dlq_files s) (attempts s) (dlq_attempts s).
Definition upd_errors (f : Z -> Z) (s : ft) : ft :=
  mkFt (batch_size s) (processed_count s) (f (error_count s)) (retry_count s)
       (batch_buffer s) (file_counter s) (max_retries s) (retry_delay s) (enable_dlq s)
       (parquet_files s) (checkpoints s) (dlq_files s) (attempts s) (dlq_attempts s).
Definition upd_retries (f : Z -> Z) (s : ft) : ft :=
  mkFt (batch_size s) (processed_count s) (error_count s) (f (retry_count s))
       (batch_buffer s) (file_counter s) (max_retries s) (retry_delay s) (enable_dlq s)
       (parquet_files s) (checkpoints s) (dlq_files s) (attempts s) (dlq_attempts s).
Definition upd_buffer (b : list A) (s : ft) : ft :=
  mkFt (batch_size s) (processed_count s) (error_count s) (retry_count s)
       b (file_counter s) (max_retries s) (retry_delay s) (enable_dlq s)
       (parquet_files s) (checkpoints s) (dlq_files s) (attempts s) (dlq_attempts s).
Definition upd_file_counter (f : Z -> Z) (s : ft) : ft :=
  mkFt (batch_size s) (processed_count s) (error_count s) (retry_count s)
       (batch_buffer s) (f (file_counter s)) (max_retries s) (retry_delay s) (enable_dlq s)
       (parquet_files s) (checkpoints s) (dlq_files s) (attempts s) (dlq_attempts s).
Definition add_parquet (b : list A) (s : ft) : ft :=
  mkFt (batch_size s) (processed_count s) (error_count s) (retry_count s)
       (batch_buffer s) (file_counter s) (max_retries s) (retry_delay s) (enable_dlq s)
       (parquet_files s ++ [b]) (checkpoints s) (dlq_files s) (attempts s) (dlq_attempts s).
Definition add_checkpoint (s : ft) : ft :=
  mkFt (batch_size s) (processed_count s) (error_count s) (retry_count s)
       (batch_buffer s) (file_counter s) (max_retries s) (retry_delay s) (enable_dlq s)
       (parquet_files s) (checkpoints s ++ [(file_counter s, processed_count s)])
       (dlq_files s) (attempts s) (dlq_attempts s).
Definition add_dlq (entry : list A * exn) (s : ft) : ft :=
  mkFt (batch_size s) (processed_count s) (error_count s) (retry_count s)
       (batch_buffer s) (file_counter s) (max_retries s) (retry_delay s) (enable_dlq s)
       (parquet_files s) (checkpoints s) (dlq_files s ++ [entry]) (attempts s) (dlq_attempts s).
Definition tick_attempts (s : ft) : ft :=
  mkFt (batch_size s) (processed_count s) (error_count s) (retry_count s)
       (batch_buffer s) (file_counter s) (max_retries s) (retry_delay s) (enable_dlq s)
       (parquet_files s) (checkpoints s) (dlq_files s) (S (attempts s)) (dlq_attempts s).
Definition tick_dlq_attempts (s : ft) : ft :=
  mkFt (batch_size s) (processed_count s) (error_count s) (retry_count s)
       (batch_buffer s) (file_counter s) (max_retries s) (retry_delay s) (enable_dlq s)
       (parquet_files s) (checkpoints s) (dlq_files s) (attempts s) (S (dlq_attempts s)).

(** [time.sleep(delay)] first converts [delay] to a signed 64-bit count
    of nanoseconds, rounding away from zero, and raises [OverflowError]
    when the count does not fit; it then raises [ValueError] for a
    negative delay. The delay is taken as the exact rational
    [retry_delay * 2 ** retry_count]: the rounding of the float
    multiplications is not modelled. *)
Definition ns_fits (delay : Q) : bool :=
  Qle_bool (inject_Z (- 2 ^ 63)) (delay * inject_Z (10 ^ 9)) &&
  Qle_bool (delay * inject_Z (10 ^ 9)) (inject_Z (2 ^ 63 - 1)).

Definition sleep (delay : Q) : M unit :=
  if ns_fits delay then (if Qle_bool 0 delay then ret tt else raise ValueError)
  else raise OverflowError.

(** [_save_checkpoint]: a failure is caught and logged. *)
Definition _save_checkpoint (e : attempt_env) : M unit :=
  try_except (if save_ok e then modify add_checkpoint else raise OSError)
             (fun _ => ret tt).

(** [_process_batch(batch)]. The random sleep has no observable effect;
    the statistics failure is caught ([total_amount = 0]). *)
Definition _process_batch (batch : list A) : M unit :=
  n <- gets attempts ;;
  modify tick_attempts ;;;
  let e := proc_env n in
  if random_fail e then raise SimulatedError else
  if negb (df_ok e) then raise DataFrameError else
  modify (upd_file_counter (fun k => k + 1)) ;;;
  try_except (if write_ok e then modify (add_parquet batch) else raise WriteError)
             (fun err => modify (upd_file_counter (fun k => k - 1)) ;;; raise err) ;;;
  modify (upd_processed (fun k => k + Z.of_nat (length batch))) ;;;
  _save_checkpoint e.

(** [_send_to_dlq(batch, error_message)]: the file write may fail; the
    failure is caught and logged. *)
Definition _send_to_dlq (batch : list A) (err : exn) : M unit :=
  try_except
    (n <- gets dlq_attempts ;;
     modify tick_dlq_attempts ;;;
     if dlq_ok n then modify (add_dlq (batch, err)) else raise OSError)
    (fun _ => ret tt).

(** [_process_batch_with_retry(batch, retry_count)]; the recursion is
    bounded by [max_retries - retry_count], [fuel] is one more than that.
    At a level deeper than [rec_room], [_process_batch] is still entered
    (its frame is no deeper than the previous level's call to
    [random.uniform]), its first Python call raises [RecursionError], and
    so does the logging call of the handler, so the error leaves every
    level. Paths where the limit is hit midway through an attempt are not
    modelled. *)
Fixpoint retry_loop (fuel : nat) (batch : list A) (rc : Z) : M unit :=
  let deep := rec_room <? rc in
  try_except (if deep then (modify tick_attempts ;;; raise RecursionError)
              else _process_batch batch)
    (fun err =>
       if deep then raise RecursionError else
       mr <- gets max_retries ;;
       if rc <? mr then
         d <- gets retry_delay ;;
         sleep (d * inject_Z (2 ^ rc)) ;;;
         modify (upd_retries (fun k => k + 1)) ;;;
         match fuel with
         | O => ret tt
         | S fuel' => retry_loop fuel' batch (rc + 1)
         end
       else
         modify (upd_errors (fun k => k + 1)) ;;;
         dlq <- gets enable_dlq ;;
         if dlq then _send_to_dlq batch err else ret tt).

Definition _process_batch_with_retry (batch : list A) (rc : Z) : M unit :=
  fun s => retry_loop (S (Z.to_nat (max_retries s - rc))) batch rc s.

(** [close()]: flush the buffer with retries, log, look at the DLQ
    directory; every [Exception] is caught and logged. *)
Definition close : M unit :=
  try_except
    (buf <- gets batch_buffer ;;
     match buf with
     | [] => ret tt
     | _ => _process_batch_with_retry buf 0 ;;; modify (upd_buffer [])
     end ;;;
     dlq <- gets enable_dlq ;;
     if dlq then (if glob_ok then ret tt else raise OSError) else ret tt)
    (fun _ => ret tt).

End FaultTolerant.
Arguments Ok {X}. Arguments Raise {X}.
Arguments mkFt {A}.
Arguments batch_size {A}.
Arguments processed_count {A}.
Arguments error_count {A}.
Arguments retry_count {A}.
Arguments batch_buffer {A}.
Arguments file_counter {A}.
Arguments max_retries {A}.
Arguments retry_delay {A}.
Arguments enable_dlq {A}.
Arguments parquet_files {A}.
Arguments checkpoints {A}.
Arguments dlq_files {A}.
Arguments attempts {A}.
Arguments dlq_attempts {A}.
Arguments ret {A X}. Arguments raise {A X}. Arguments bind {A X Y}.
Arguments try_except {A X}. Arguments modify {A}. Arguments gets {A X}.
Arguments sleep {A}. Arguments _save_checkpoint {A}.
Arguments upd_processed {A}. Arguments upd_errors {A}. Arguments upd_retries {A}.
Arguments upd_buffer {A}. Arguments upd_file_counter {A}. Arguments add_parquet {A}.
Arguments add_checkpoint {A}. Arguments add_dlq {A}. Arguments tick_attempts {A}.
Arguments tick_dlq_attempts {A}.
Arguments _process_batch {A} proc_env batch.
Arguments _send_to_dlq {A} dlq_ok batch err.
Arguments retry_loop {A} proc_env dlq_ok rec_room fuel batch rc.
Arguments _process_batch_with_retry {A} proc_env dlq_ok rec_room batch rc.
Arguments close {A} proc_env dlq_ok rec_room glob_ok.
End FaultTolerant.

(** ** Worlds and predicates used to state the claims about the
    fault-tolerant consumer *)
Module FaultTolerantWorlds.
Import FaultTolerant.

(** An invocation of [_process_batch] raises exactly when the simulated
    failure fires, the DataFrame conversion fails or the write fails. *)
Definition fails (e : attempt_env) : bool :=
  random_fail e || negb (df_ok e) || negb (write_ok e).

(** Everything but the [attempts] ghost counter is as before. *)
Definition frame {A : Type} (s s1 : ft A) : Prop :=
  attempts s1 = S (attempts s) /\
  processed_count s1 = processed_count s /\ file_counter s1 = file_counter s /\
  checkpoints s1 = checkpoints s /\ parquet_files s1 = parquet_files s /\
  error_count s1 = error_count s /\ retry_count s1 = retry_count s /\
  max_retries s1 = max_retries s /\ retry_delay s1 = retry_delay s /\
  enable_dlq s1 = enable_dlq s /\ batch_buffer s1 = batch_buffer s /\
  dlq_files s1 = dlq_files s /\ dlq_attempts s1 = dlq_attempts s.

(** C4 as stated: with [max_retries = R] and [_process_batch] raising on
    every invocation, [_process_batch_with_retry(batch)] invokes it exactly
    [R + 1] times, increments [error_count] by exactly one, writes one DLQ
    file when [enable_dlq] holds and returns normally. *)
Definition c4_as_stated {A : Type} (proc_env : nat -> attempt_env) (dlq_ok : nat -> bool)
    (rec_room : Z) (s : ft A) (batch : list A) : Prop :=
  (forall n, fails (proc_env n) = true) ->
  let '(r, s') := _process_batch_with_retry proc_env dlq_ok rec_room batch 0 s in
  r = Ok tt /\
  Z.of_nat (attempts s') = Z.of_nat (attempts s) + max_retries s + 1 /\
  error_count s' = error_count s + 1 /\
  (enable_dlq s = true -> length (dlq_files s') = S (length (dlq_files s))).

(** The retries stay within the limits of the interpreter: every delay
    slept, at most [retry_delay * 2 ** (R - 1)] for [R = max_retries],
    fits [time.sleep]'s nanosecond count (about 9.2e9 s), and the [R]
    nested retries fit under the recursion limit. *)
Definition retries_fit {A : Type} (rec_room : Z) (s : ft A) : Prop :=
  ns_fits (retry_delay s * inject_Z (2 ^ (max_retries s - 1))) = true /\
  0 <= rec_room /\ max_retries s <= rec_room.

(** A world where every [_process_batch] raises the simulated error. *)
Definition always_fail : nat -> attempt_env :=
  fun _ => mkAttemptEnv true true true true true.

(** A fresh consumer (no checkpoint) with the given [max_retries] and
    [retry_delay], DLQ enabled, batch size 2. *)
Definition fresh (mr : Z) (delay : Q) : ft nat :=
  mkFt 2 0 0 0 [] 0 mr delay true [] [] [] 0 0.

(** A world whose first Parquet write fails. *)
Definition write_fails : nat -> attempt_env :=
  fun _ => mkAttemptEnv false true true false true.

End FaultTolerantWorlds.

(** ** [FaultTolerantBatchConsumer.consume] and the predicates used to
    state what the fault-tolerant consumer does to a batch *)
Module FaultTolerantConsume.
Import Py FaultTolerant.

Section Consume.
Variable A : Type.
Variable proc_env : nat -> attempt_env.
Variable dlq_ok : nat -> bool.
Variable rec_room : Z.

(** A method with a [while] loop, run for a bounded number of
    iterations: [None] is a run still going when the fuel is used up,
    with the state it has reached; with [batch_size <= 0] the loop of
    [consume] only ends by an exception. *)
Definition MD (X : Type) := ft A -> option (result X) * ft A.

Definition lift {X} (m : M A X) : MD X := fun s => let '(r, s') := m s in (Some r, s').
Definition bindD {X Y} (m : MD X) (k : X -> MD Y) : MD Y :=
  fun s => match m s with
           | (Some (Ok x), s') => k x s'
           | (Some (Raise e), s') => (Some (Raise e), s')
           | (None, s') => (None, s')
           end.
(** [try: m except Exception as e: h(e)] around a loop. *)
Definition tryD {X} (m : MD X) (h : exn -> M A X) : MD X :=
  fun s => match m s with
           | (Some (Raise e), s') => lift (h e) s'
           | rs => rs
           end.

(** The [while len(self.batch_buffer) >= self.batch_size] loop of
    [consume], for at most [fuel] tests of the condition. *)
Fixpoint consume_loop (fuel : nat) : MD unit :=
  match fuel with
  | O => fun s => (None, s)
  | S fuel' =>
      fun s =>
        let buf := batch_buffer s in
        let bsz := batch_size s in
        if bsz <=? Z.of_nat (length buf) then
          bindD (lift (modify (upd_buffer (py_drop bsz buf))))
            (fun _ => bindD (lift (_process_batch_with_retry proc_env dlq_ok rec_room
                                     (py_take bsz buf) 0))
                            (fun _ => consume_loop fuel')) s
        else (Some (Ok tt), s)
  end.

(** [consume(elements)]: extend the buffer, process the complete
    batches; any exception is logged and counted in [error_count]. *)
Definition consume (fuel : nat) (elements : list A) : MD unit :=
  tryD
    (bindD (lift (modify (fun s => upd_buffer (batch_buffer s ++ elements) s)))
           (fun _ => consume_loop fuel))
    (fun _ => modify (upd_errors (fun k => k + 1))).

(** The consecutive [n]-item slices of [l] that the loop hands to
    [_process_batch_with_retry], in order. *)
Definition chunks (n : nat) (l : list A) : list (list A) :=
  map (fun i => take n (drop (i * n) l)) (seq 0 (length l / n)).

(** The effect of [_process_batch_with_retry(batch)] on the output and
    the counters: either [batch] was written as one Parquet file, or it
    was counted in [error_count] and written to at most one DLQ file. *)
Definition batch_outcome (batch : list A) (s s' : ft A) : Prop :=
  (parquet_files s' = parquet_files s ++ [batch] /\
   file_counter s' = file_counter s + 1 /\
   processed_count s' = processed_count s + Z.of_nat (length batch) /\
   error_count s' = error_count s /\ dlq_files s' = dlq_files s) \/
  (parquet_files s' = parquet_files s /\
   file_counter s' = file_counter s /\
   processed_count s' = processed_count s /\
   error_count s' = error_count s + 1 /\
   (dlq_files s' = dlq_files s \/
    (enable_dlq s = true /\ exists err, dlq_files s' = dlq_files s ++ [(batch, err)]))).

(** The configuration fields, which no method changes. *)
Definition config_same (s s' : ft A) : Prop :=
  batch_size s' = batch_size s /\ max_retries s' = max_retries s /\
  retry_delay s' = retry_delay s /\ enable_dlq s' = enable_dlq s.

(** The state on disk agrees with the counters: starting from
    [file_counter = f0] and [processed_count = p0] (the values restored
    from the checkpoint), the counters account for exactly the Parquet
    files written, and every checkpoint written records the counters as
    they were after some prefix of those files. *)
Definition ckpt_consistent (f0 p0 : Z) (s : ft A) : Prop :=
  file_counter s = f0 + Z.of_nat (length (parquet_files s)) /\
  processed_count s = p0 + Z.of_nat (length (concat (parquet_files s))) /\
  Forall (fun kn => exists fs, prefix fs (parquet_files s) /\
            kn = (f0 + Z.of_nat (length fs), p0 + Z.of_nat (length (concat fs))))
         (checkpoints s).

(** The consumer as the bus drives it: [consume] on each list of
    elements it delivers, in order, then [close()] when the bus is closed
    (modelled from the spec: the calls are made by the [disruptor]
    package). *)
Fixpoint consume_calls (fuel : nat) (glob_ok : bool) (calls : list (list A)) : MD unit :=
  match calls with
  | [] => lift (close proc_env dlq_ok rec_room glob_ok)
  | el :: rest => bindD (consume fuel el) (fun _ => consume_calls fuel glob_ok rest)
  end.

End Consume.
Arguments lift {A X}. Arguments bindD {A X Y}. Arguments tryD {A X}.
Arguments consume_loop {A} proc_env dlq_ok rec_room fuel.
Arguments consume {A} proc_env dlq_ok rec_room fuel elements.
Arguments consume_calls {A} proc_env dlq_ok rec_room fuel glob_ok calls.
Arguments chunks {A}. Arguments batch_outcome {A}.
Arguments config_same {A}. Arguments ckpt_consistent {A}.
End FaultTolerantConsume.

(* ===================================================================== *)
(** ** measure_performance (src/benchmark.py) *)
(* ===================================================================== *)

Module Benchmark.

(** What the wrapper does besides calling [func]: read the resident set
    size ([process.memory_info()]), read a clock ([time()] / [timer()]),
    print the report. [Call a] records an invocation of [func] on the
    arguments [a]. *)
Inductive event (Args : Type) :=
  | MemInfo
  | Clock
  | Call (a : Args)
  | Report.
Arguments MemInfo {Args}. Arguments Clock {Args}.
Arguments Call {Args}. Arguments Report {Args}.

(** A Python call returns a value or raises. *)
Inductive outcome (R : Type) := Returned (r : R) | Raised (e : nat).
Arguments Returned {R}. Arguments Raised {R}.

Section Wrapper.
Variables Args R W : Type.

(** Whether a step of the wrapper itself raises, and with which
    exception, in a given world: [psutil.Process(...).memory_info()] may
    raise a psutil error, and the report reads [func.__name__] (an
    [AttributeError] for a callable without one, e.g. a
    [functools.partial]) and prints a non-ASCII character (a
    [UnicodeEncodeError] on an ASCII stdout). [None]: the step succeeds. *)
Variable step_raises : event Args -> W -> option nat.

(** The wrapped function: it acts on the rest of the world [W] (its own
    side effects) and returns or raises. *)
Variable func : Args -> W -> outcome R * W.

(** The wrapper's own steps [evs], in order, up to the first that
    raises; the steps done are added to the log. *)
Fixpoint steps (evs : list (event Args)) (w : W) (log : list (event Args)) :
    option nat * list (event Args) :=
  match evs with
  | [] => (None, log)
  | ev :: evs' =>
      match step_raises ev w with
      | Some e => (Some e, log)
      | None => steps evs' w (log ++ [ev])
      end
  end.

(** [wrapper] applied to the positional and keyword arguments: the world, plus the log of what the
    wrapper itself did. *)
Definition wrapper (args : Args) (st : W * list (event Args)) :
    outcome R * (W * list (event Args)) :=
  let '(w, log) := st in
  (* process = psutil.Process(...); mem_before = ...; start = time() *)
  match steps [MemInfo; Clock] w log with
  | (Some e, log1) => (Raised e, (w, log1))
  | (None, log1) =>
      (* result = func(...) on the same arguments *)
      let '(res, w') := func args w in
      let log2 := log1 ++ [Call args] in
      match res with
      | Raised e => (Raised e, (w', log2))
      | Returned r =>
          (* end = timer(); mem_after = ...; print(...) ; return result *)
          match steps [Clock; MemInfo; Report] w' log2 with
          | (Some e, log3) => (Raised e, (w', log3))
          | (None, log3) => (Returned r, (w', log3))
          end
      end
  end.

End Wrapper.
Arguments wrapper {Args R W}. Arguments steps {Args W}.

(** The invocations of [func] recorded in a log. *)
Definition calls {Args : Type} (log : list (event Args)) : list Args :=
  omap (fun ev => match ev with Call a => Some a | _ => None end) log.

(** C10 as stated: in the given world, for all arguments, the wrapper
    calls [func] exactly once, on these arguments, and returns (or
    raises) exactly what [func] did, with [func]'s effects on the world. *)
Definition c10_as_stated {Args R W : Type} (step_raises : event Args -> W -> option nat)
    (func : Args -> W -> outcome R * W) : Prop :=
  forall args w log,
    let '(res, (w', log')) := wrapper step_raises func args (w, log) in
    (res, w') = func args w /\ calls log' = calls log ++ [args].

End Benchmark.

(* ===================================================================== *)
(** ** The Disruptor bus (package [disruptor], used by every example) *)
(* ===================================================================== *)

(** Modelled from the spec: the [disruptor] package providing [Disruptor]
    ([register_consumer], [produce], [close], [consumer_error_handler]) is
    not part of src/. The model follows the spec's sections 3 to 5: a ring
    buffer of [capacity] slots indexed by [sequence mod capacity], a
    producer cursor and one cursor per consumer starting at -1, the gating
    test [s - capacity < gating()] for every claimed sequence [s], a
    consumer worker that reads the whole range [cursor+1 .. producer_cursor]
    as one batch, hands it to [consume], routes a raise to the error handler
    (or the default log) and then advances past the batch, and the
    lifecycle NEW / RUNNING / DRAINING / CLOSED. Concurrency is modelled by
    interleaving: an execution is any sequence of atomic steps. *)
Module Disruptor.

(** Modelled from the spec: the dispatcher's lifecycle states. *)
Inductive lifecycle := NEW | RUNNING | DRAINING | CLOSED.

(** Modelled from the spec: The result of an operation: it took effect, it must wait (the ring is
    full, there is nothing to consume, the drain is not finished), or it
    is a misuse (fatal precondition violation, state unchanged). *)
Inductive outcome := Done | Blocked | Misuse.

Section Bus.
Variable A : Type.   (* published items *)
Variable E : Type.   (* exceptions raised by a consumer's [consume] *)

(** Modelled from the spec: The behaviour of the consumers' [consume] callbacks: whether consumer
    [i] raises (and what) when handed a given batch. *)
Variable consume_raises : nat -> list (option A) -> option E.

(** Modelled from the spec: A consumer worker: its cursor, the batches handed to its [consume]
    (in order) and the number of calls of its [close]. *)
Record worker := mkWorker {
  cursor : Z;
  delivered : list (list (option A));
  close_calls : nat
}.

(** Modelled from the spec: The dispatcher. [ring] holds [capacity] slots ([None] = never
    written). [handler_calls] records the invocations of the configured
    [consumer_error_handler] with [(consumer, input_batch, error)],
    [error_log] the default log-and-skip when none is configured.
    [published] is the history of published items (ghost). *)
Record disruptor := mkDisruptor {
  capacity : Z;
  ring : list (option A);
  producer_cursor : Z;
  workers : list worker;
  state : lifecycle;
  has_handler : bool;
  handler_calls : list (nat * list (option A) * E);
  error_log : list (nat * list (option A) * E);
  published : list A
}.

(** Modelled from the spec: record updates of the consumer list and of
    the lifecycle state. *)
Definition set_workers (d : disruptor) (ws : list worker) : disruptor :=
  mkDisruptor (capacity d) (ring d) (producer_cursor d) ws (state d)
              (has_handler d) (handler_calls d) (error_log d) (published d).
Definition set_state (d : disruptor) (st : lifecycle) : disruptor :=
  mkDisruptor (capacity d) (ring d) (producer_cursor d) (workers d) st
              (has_handler d) (handler_calls d) (error_log d) (published d).

(** Modelled from the spec: Construction: a non-positive capacity is a misuse. *)
Definition new (size : Z) (handler : bool) : option disruptor :=
  if size <=? 0 then None
  else Some (mkDisruptor size (repeat None (Z.to_nat size)) (-1) [] NEW handler [] [] []).

(** Modelled from the spec: [gating()]: the minimum consumer cursor; with no consumer the
    producer gates on its own cursor. *)
Definition gating (d : disruptor) : Z :=
  fold_right Z.min (producer_cursor d) (map cursor (workers d)).

Definition slot (d : disruptor) (s : Z) : nat := Z.to_nat (s mod capacity d).

(** Modelled from the spec: [read(sequence)]. *)
Definition read (d : disruptor) (s : Z) : option A :=
  match ring d !! slot d s with
  | Some v => v
  | None => None
  end.

(** Modelled from the spec: [write(sequence, item)] for the consecutive sequences [s, s+1, ...]. *)
Fixpoint write_all (K : Z) (r : list (option A)) (s : Z) (items : list A) :
    list (option A) :=
  match items with
  | [] => r
  | x :: xs => write_all K (<[Z.to_nat (s mod K) := Some x]> r) (s + 1) xs
  end.

(** Modelled from the spec: [register_consumer(consumer)]: only before the first publication. *)
Definition register_consumer (d : disruptor) : outcome * disruptor :=
  match state d with
  | NEW => (Done, set_workers d (workers d ++ [mkWorker (-1) [] 0]))
  | _ => (Misuse, d)
  end.

(** Modelled from the spec: [produce(items)]: claim [len(items)] sequences [pc+1 .. pc+n]; each
    claimed [s] must satisfy [s - capacity < gating()] (it suffices for
    the last one), otherwise the producer waits; then write the slots in
    order and publish the range. *)
Definition produce (d : disruptor) (items : list A) : outcome * disruptor :=
  match state d with
  | DRAINING | CLOSED => (Misuse, d)
  | NEW | RUNNING =>
      let hi := producer_cursor d + Z.of_nat (length items) in
      if hi - capacity d <? gating d then
        (Done, mkDisruptor (capacity d)
                 (write_all (capacity d) (ring d) (producer_cursor d + 1) items)
                 hi (workers d) RUNNING (has_handler d) (handler_calls d)
                 (error_log d) (published d ++ items))
      else (Blocked, d)
  end.

(** Modelled from the spec: The ordered read of the slots [s, s+1, ..., s+n-1]. *)
Fixpoint read_batch (d : disruptor) (s : Z) (n : nat) : list (option A) :=
  match n with
  | O => []
  | S n' => read d s :: read_batch d (s + 1) n'
  end.

(** Modelled from the spec: One iteration of consumer [i]'s worker loop (steps 1 to 5 of the
    spec's section 4.4): batch [cursor+1 .. producer_cursor], [consume],
    error routing, cursor advance. With nothing new it waits. *)
Definition worker_step (d : disruptor) (i : nat) : outcome * disruptor :=
  match workers d !! i with
  | None => (Misuse, d)
  | Some w =>
      if producer_cursor d <=? cursor w then (Blocked, d)
      else
        let batch := read_batch d (cursor w + 1) (Z.to_nat (producer_cursor d - cursor w)) in
        let w' := mkWorker (producer_cursor d) (delivered w ++ [batch]) (close_calls w) in
        let d' := set_workers d (<[i := w']> (workers d)) in
        match consume_raises i batch with
        | None => (Done, d')
        | Some e =>
            if has_handler d then
              (Done, mkDisruptor (capacity d') (ring d') (producer_cursor d') (workers d')
                       (state d') (has_handler d') (handler_calls d' ++ [(i, batch, e)])
                       (error_log d') (published d'))
            else
              (Done, mkDisruptor (capacity d') (ring d') (producer_cursor d') (workers d')
                       (state d') (has_handler d') (handler_calls d')
                       (error_log d' ++ [(i, batch, e)]) (published d'))
        end
  end.

(** Modelled from the spec: [close()], first half: stop accepting publications. *)
Definition begin_close (d : disruptor) : outcome * disruptor :=
  match state d with
  | NEW | RUNNING => (Done, set_state d DRAINING)
  | DRAINING | CLOSED => (Done, d)
  end.

(** Modelled from the spec: [close()], second half: once every consumer has caught up with the
    producer cursor, call each consumer's [close] once. *)
Definition finish_close (d : disruptor) : outcome * disruptor :=
  match state d with
  | DRAINING =>
      if forallb (fun w => cursor w =? producer_cursor d) (workers d) then
        (Done, set_state (set_workers d
                 (map (fun w => mkWorker (cursor w) (delivered w) (S (close_calls w)))
                      (workers d))) CLOSED)
      else (Blocked, d)
  | CLOSED => (Done, d)
  | NEW | RUNNING => (Blocked, d)
  end.

(** Modelled from the spec: Let every worker run one iteration (consumers [0 .. n-1]). *)
Fixpoint drain_from (i : nat) (n : nat) (d : disruptor) : disruptor :=
  match n with
  | O => d
  | S n' => drain_from (S i) n' (snd (worker_step d i))
  end.

(** Modelled from the spec: [close()] as called by the user: stop publications, wait for the
    consumers to drain, call their [close], end in CLOSED. *)
Definition close (d : disruptor) : outcome * disruptor :=
  let d1 := snd (begin_close d) in
  finish_close (drain_from 0 (length (workers d1)) d1).

(** Modelled from the spec: The atomic steps an execution interleaves. *)
Inductive action :=
  | ARegister
  | AProduce (items : list A)
  | AWorker (i : nat)
  | ABeginClose
  | AFinishClose
  | AClose.

Definition step (d : disruptor) (a : action) : outcome * disruptor :=
  match a with
  | ARegister => register_consumer d
  | AProduce items => produce d items
  | AWorker i => worker_step d i
  | ABeginClose => begin_close d
  | AFinishClose => finish_close d
  | AClose => close d
  end.

Definition run (d : disruptor) (acts : list action) : disruptor :=
  fold_left (fun d a => snd (step d a)) acts d.

(** Modelled from the spec: The freshly constructed dispatcher ([new] with [size = K > 0]). *)
Definition init (K : Z) (handler : bool) : disruptor :=
  mkDisruptor K (repeat None (Z.to_nat K)) (-1) [] NEW handler [] [] [].

(** Modelled from the spec: The log that receives callback failures: the handler's if one is
    configured, otherwise the default log. *)
Definition failure_log (d : disruptor) : list (nat * list (option A) * E) :=
  if has_handler d then handler_calls d else error_log d.

(** Modelled from the spec: The failures of consumer [i] over the batches [bs] it was handed. *)
Definition raised (i : nat) (bs : list (list (option A))) : list (list (option A) * E) :=
  omap (fun b => match consume_raises i b with Some e => Some (b, e) | None => None end) bs.

(** Modelled from the spec: The invariants of spec section 3 (and the bookkeeping they need) on a
    dispatcher state: every consumer's cursor lies between -1 and the
    producer cursor, and the batches it was handed are exactly the
    published items up to its cursor; the producer is less than
    [capacity] ahead of the gating sequence; every slot of a sequence not
    yet read by all consumers holds that sequence's item; callback
    failures are logged per consumer; the lifecycle facts. *)
Definition worker_ok (pc : Z) (pub : list A) (w : worker) : Prop :=
  -1 <= cursor w <= pc /\
  concat (delivered w) = map Some (take (Z.to_nat (cursor w + 1)) pub) /\
  Forall (fun b => b <> []) (delivered w).

Definition inv (d : disruptor) : Prop :=
  0 < capacity d /\
  length (ring d) = Z.to_nat (capacity d) /\
  producer_cursor d + 1 = Z.of_nat (length (published d)) /\
  Forall (worker_ok (producer_cursor d) (published d)) (workers d) /\
  producer_cursor d - gating d < capacity d /\
  (forall s x, gating d < s -> published d !! Z.to_nat s = Some x ->
               ring d !! slot d s = Some (Some x)) /\
  (state d = NEW -> published d = [] /\ handler_calls d = [] /\ error_log d = []) /\
  (state d = CLOSED ->
     Forall (fun w => cursor w = producer_cursor d /\ close_calls w = 1%nat) (workers d)) /\
  (state d <> CLOSED -> Forall (fun w => close_calls w = 0%nat) (workers d)) /\
  (if has_handler d then error_log d = [] else handler_calls d = []) /\
  (forall i w, workers d !! i = Some w ->
     filter (fun t : nat * list (option A) * E => t.1.1 = i) (failure_log d) =
     map (fun be => (i, be.1, be.2)) (raised i (delivered w))).

(** Modelled from the spec: Every logged failure names a registered consumer. *)
Definition log_indexed (d : disruptor) : Prop :=
  Forall (fun t : nat * list (option A) * E => (t.1.1 < length (workers d))%nat)
         (handler_calls d ++ error_log d).

End Bus.

Arguments cursor {A}. Arguments delivered {A}. Arguments close_calls {A}.
Arguments mkWorker {A}. Arguments mkDisruptor {A E}.
Arguments capacity {A E}. Arguments ring {A E}. Arguments producer_cursor {A E}.
Arguments workers {A E}. Arguments state {A E}. Arguments has_handler {A E}.
Arguments handler_calls {A E}. Arguments error_log {A E}. Arguments published {A E}.
Arguments set_workers {A E}. Arguments set_state {A E}. Arguments new {A E}.
Arguments gating {A E}. Arguments slot {A E}. Arguments read {A E}.
Arguments write_all {A}. Arguments register_consumer {A E}. Arguments produce {A E}.
Arguments read_batch {A E}. Arguments worker_step {A E} consume_raises d i.
Arguments begin_close {A E}. Arguments finish_close {A E}.
Arguments drain_from {A E} consume_raises i n d.
Arguments close {A E} consume_raises d.
Arguments ARegister {A}. Arguments AProduce {A}. Arguments AWorker {A}.
Arguments ABeginClose {A}. Arguments AFinishClose {A}. Arguments AClose {A}.
Arguments step {A E} consume_raises d a. Arguments run {A E} consume_raises d acts.
Arguments init {A E}. Arguments failure_log {A E}. Arguments raised {A E} consume_raises i bs.
Arguments worker_ok {A}. Arguments inv {A E} consume_raises d.
Arguments log_indexed {A E}.

End Disruptor.

(** Modelled from the spec: ** Scenario S5 of the spec

    Items are integers. The consumer's [consume] walks its batch and raises
    at an item its predicate flags, so one invocation raises at most once;
    the counting error handler is the configured handler, and the number
    of its invocations is the length of [handler_calls]. *)
Module ScenarioS5.
Import Disruptor.

Definition flagged_item (p : Z -> bool) (o : option Z) : bool :=
  match o with Some x => p x | None => false end.

Definition flagged (p : Z -> bool) (b : list (option Z)) : bool :=
  existsb (flagged_item p) b.

Definition raises_on (p : Z -> bool) (i : nat) (b : list (option Z)) : option unit :=
  if flagged p b then Some tt else None.

(** Modelled from the spec: The two divisibility conventions of the scenario. *)
Definition mult7 (x : Z) : bool := x mod 7 =? 0.
Definition mult7_nonzero (x : Z) : bool := (x mod 7 =? 0) && negb (x =? 0).

(** Modelled from the spec: Producing [0..99] one item per call, with one consumer that runs an
    iteration after every publication, then closing. *)
Definition sched_lockstep : list (action Z) :=
  ARegister :: concat (map (fun x => [AProduce [x]; AWorker 0]) (seqZ 0 100)) ++ [AClose].

(** Modelled from the spec: Producing [0..99] one item per call, where the consumer first runs
    after [0..14] are published and then after every publication. *)
Definition sched_burst : list (action Z) :=
  ARegister :: map (fun x => AProduce [x]) (seqZ 0 15) ++ [AWorker 0] ++
  concat (map (fun x => [AProduce [x]; AWorker 0]) (seqZ 15 85)) ++ [AClose].

End ScenarioS5.

(* ===================================================================== *)
(** ** Proofs about BatchJsonConsumer *)
(* ===================================================================== *)

Module BatchJsonProofs.
Import Py BatchJson.

Section Proofs.
Variable A : Type.
Variable env : nat -> attempt_env.
Implicit Types (c : consumer A) (bs : list (list A)).

Lemma py_take_pos (n : Z) (l : list A) : 0 <= n -> py_take n l = take (Z.to_nat n) l.
Proof. intros H. unfold py_take. destruct (Z.leb_spec 0 n); [done|lia]. Qed.

Lemma py_drop_pos (n : Z) (l : list A) : 0 <= n -> py_drop n l = drop (Z.to_nat n) l.
Proof. intros H. unfold py_drop. destruct (Z.leb_spec 0 n); [done|lia]. Qed.

(** What a normal return of [_process_batch] did. *)
Lemma process_batch_returned c batch c' :
  _process_batch env c batch = (Returned, c') ->
  c' = mkConsumer (batch_size c) (processed_count c + Z.of_nat (length batch))
                  (batch_buffer c) (file_counter c + 1)
                  (written c ++ [batch]) (passed c ++ [batch]).
Proof.
  unfold _process_batch. destruct (env (length (passed c))) as [[] [] []]; simpl;
    intros H; inversion H; done.
Qed.

(** A normal return of the loop has cut the buffer into [B]-item
    batches, each written. *)
Lemma drain_returned (B : Z) (fuel : nat) c c' :
  1 <= B -> batch_size c = B -> drain env fuel c = (Returned, c') ->
  exists bs,
    written c' = written c ++ bs /\ passed c' = passed c ++ bs /\
    Forall (fun b => Z.of_nat (length b) = B) bs /\
    concat bs ++ batch_buffer c' = batch_buffer c /\
    processed_count c' = processed_count c + Z.of_nat (length (concat bs)) /\
    file_counter c' = file_counter c + Z.of_nat (length bs) /\
    Z.of_nat (length (batch_buffer c')) < B /\
    batch_size c' = B.
Proof.
  intros HB. revert c. induction fuel as [|fuel IH]; intros c Hsz Hrun; [discriminate|].
  simpl in Hrun. destruct (Z.leb_spec (batch_size c) (Z.of_nat (length (batch_buffer c)))) as [Hle|Hlt].
  - rewrite py_take_pos, py_drop_pos in Hrun by lia.
    set (n := Z.to_nat (batch_size c)) in Hrun.
    assert (Hn : length (take n (batch_buffer c)) = n) by (apply length_take_le; lia).
    destruct (_process_batch env (set_buffer c (drop n (batch_buffer c))) (take n (batch_buffer c)))
      as [st c1] eqn:Ep.
    destruct st; try discriminate.
    apply process_batch_returned in Ep. subst c1.
    apply IH in Hrun; [|simpl; done].
    destruct Hrun as (bs & Hw & Hp & Hf & Hc & Hpc & Hfc & Hl & Hs).
    exists (take n (batch_buffer c) :: bs). simpl in *.
    rewrite Hw, Hp, <- !app_assoc. split; [done|]. split; [done|].
    split; [constructor; [rewrite Hn; unfold n; lia|done]|].
    split; [rewrite <- ?app_assoc, Hc; apply take_drop|].
    split; [rewrite Hpc, length_app; lia|].
    split; [rewrite Hfc; lia|].
    split; done.
  - injection Hrun as <-. exists []. simpl. rewrite !app_nil_r.
    repeat split; [constructor| | | |]; lia.
Qed.

Lemma failed_writes_snoc c c' batch :
  passed c' = passed c ++ [batch] ->
  failed_writes env c' =
    (failed_writes env c +
     if convert_ok (env (length (passed c))) && negb (write_ok (env (length (passed c))))
     then 1 else 0)%nat.
Proof.
  intros Hp. unfold failed_writes. rewrite Hp, length_app. simpl.
  rewrite Nat.add_1_r, seq_S, List.filter_app, length_app. simpl.
  destruct (_ && _); simpl; lia.
Qed.

Lemma process_batch_counters c batch :
  counters_ok env c -> counters_ok env (snd (_process_batch env c batch)).
Proof.
  intros [Hp Hf]. unfold _process_batch.
  pose proof (failed_writes_snoc c (mkConsumer (batch_size c) 0 [] 0 [] (passed c ++ [batch])) batch
                eq_refl) as Hw.
  unfold failed_writes in Hw |- *. simpl in Hw |- *. unfold counters_ok, failed_writes in *.
  destruct (env (length (passed c))) as [[] [] []]; simpl in *;
    rewrite ?concat_app, ?length_app; simpl; rewrite ?app_nil_r, ?length_app;
    rewrite ?length_app in Hw; simpl in Hw; rewrite Hw; split; lia.
Qed.

Lemma drain_counters fuel c : counters_ok env c -> counters_ok env (snd (drain env fuel c)).
Proof.
  revert c. induction fuel as [|fuel IH]; intros c H; simpl; [done|].
  destruct (_ <=? _); [|done].
  pose proof (process_batch_counters (set_buffer c (py_drop (batch_size c) (batch_buffer c)))
                (py_take (batch_size c) (batch_buffer c)) H) as Hp.
  destruct (_process_batch _ _ _) as [[] c1]; simpl in *; try done. apply IH, Hp.
Qed.

Lemma consume_all_counters fuel calls c :
  counters_ok env c -> counters_ok env (snd (consume_all env fuel c calls)).
Proof.
  revert c. induction calls as [|el calls IH]; intros c H; simpl; [done|].
  pose proof (drain_counters fuel (set_buffer c (batch_buffer c ++ el)) H) as H1.
  unfold consume. destruct (drain env fuel _) as [[] c1]; simpl in *; try done;
    specialize (IH c1 H1); destruct (consume_all env fuel c1 calls); done.
Qed.

Lemma close_counters c : counters_ok env c -> counters_ok env (snd (close env c)).
Proof.
  intros H. unfold close. destruct (batch_buffer c) as [|x xs]; [done|].
  pose proof (process_batch_counters c (x :: xs) H) as Hp.
  destruct (_process_batch env c (x :: xs)) as [[] c1]; done.
Qed.

End Proofs.

Section AllOk.
Variable A : Type.
Implicit Types (c : consumer A) (bs : list (list A)).

Lemma process_batch_all_ok c batch :
  _process_batch all_ok c batch =
  (Returned, mkConsumer (batch_size c) (processed_count c + Z.of_nat (length batch))
                        (batch_buffer c) (file_counter c + 1)
                        (written c ++ [batch]) (passed c ++ [batch])).
Proof. reflexivity. Qed.

(** When every invocation succeeds, the loop returns within
    [length buffer / B + 1] tests of its condition. *)
Lemma drain_all_ok_returns (B : Z) (fuel : nat) c :
  1 <= B -> batch_size c = B -> (length (batch_buffer c) / Z.to_nat B < fuel)%nat ->
  fst (drain all_ok fuel c) = Returned.
Proof.
  intros HB. revert c. induction fuel as [|fuel IH]; intros c Hsz Hf; [lia|].
  cbn [drain]. destruct (Z.leb_spec (batch_size c) (Z.of_nat (length (batch_buffer c)))) as [Hle|Hlt].
  - rewrite process_batch_all_ok. apply IH; [simpl; done|].
    cbn [batch_buffer set_buffer]. rewrite py_drop_pos by lia. rewrite length_drop.
    set (L := length (batch_buffer c)) in *. set (b := Z.to_nat B) in *.
    assert (Hb : (1 <= b)%nat) by (unfold b; lia).
    assert (HbL : (b <= L)%nat) by (unfold b, L in *; rewrite <- Hsz; lia).
    replace (Z.to_nat (batch_size c)) with b by (unfold b; rewrite Hsz; done).
    assert (E : (L / b = S ((L - b) / b))%nat).
    { replace L with (L - b + 1 * b)%nat at 1 by lia. rewrite Nat.div_add by lia. lia. }
    lia.
  - reflexivity.
Qed.

Lemma div_le_self (B x y : nat) : (1 <= B)%nat -> (y < B)%nat -> ((y + x) / B <= x)%nat.
Proof.
  intros HB Hy. destruct x as [|x].
  - rewrite Nat.add_0_r, Nat.div_small by lia. lia.
  - apply Nat.Div0.div_le_upper_bound. nia.
Qed.

(** With every invocation succeeding, [consume] returns and keeps the
    invariant. *)
Lemma consume_preserves (B : Z) (fuel : nat) total c elements :
  1 <= B -> consume_inv B total c -> (length elements < fuel)%nat ->
  let '(st, c') := consume all_ok fuel c elements in
  st = Returned /\ consume_inv B (total ++ elements) c'.
Proof.
  intros HB (Hs & Hf & Hpw & Hc & Hp & Hl) Hfuel. unfold consume.
  set (c0 := set_buffer c (batch_buffer c ++ elements)).
  assert (Hr : fst (drain all_ok fuel c0) = Returned).
  { apply (drain_all_ok_returns B); [done|done|].
    unfold c0; simpl. rewrite length_app.
    pose proof (div_le_self (Z.to_nat B) (length elements) (length (batch_buffer c)) ltac:(lia) ltac:(lia)).
    lia. }
  destruct (drain all_ok fuel c0) as [st c'] eqn:E. simpl in Hr. subst st.
  destruct (drain_returned A all_ok B fuel c0 c' HB Hs E)
    as (bs & Hw & Hpa & Hf' & Hc' & Hp' & _ & Hl' & Hs').
  unfold c0 in *; simpl in *. split; [done|].
  repeat split; [done| | | | |done].
  - rewrite Hw. apply Forall_app; done.
  - rewrite Hpa, Hw, Hpw. done.
  - rewrite Hw, concat_app, <- app_assoc, Hc', app_assoc, Hc; done.
  - rewrite Hp', Hp, Hw, concat_app, length_app; lia.
Qed.

Lemma consume_all_inv (B : Z) (fuel : nat) calls c total :
  1 <= B -> consume_inv B total c -> (length (concat calls) < fuel)%nat ->
  let '(sts, c') := consume_all all_ok fuel c calls in
  Forall (fun st => st = Returned) sts /\ length sts = length calls /\
  consume_inv B (total ++ concat calls) c'.
Proof.
  intros HB. revert c total. induction calls as [|e calls IH]; intros c total H Hfuel.
  - simpl. rewrite app_nil_r. done.
  - simpl in Hfuel. rewrite length_app in Hfuel. simpl.
    pose proof (consume_preserves B fuel total c e HB H ltac:(lia)) as He.
    destruct (consume all_ok fuel c e) as [st c1]. destruct He as [-> He].
    specialize (IH c1 (total ++ e) He ltac:(lia)).
    destruct (consume_all all_ok fuel c1 calls) as [sts c2].
    destruct IH as (Hf & Hl & Hi). rewrite app_assoc.
    split; [constructor; done|]. simpl. split; [lia|done].
Qed.

Lemma close_all_ok (B : Z) total c :
  consume_inv B total c ->
  let '(st, c') := close all_ok c in
  st = Returned /\
  (exists last, written c' = written c ++ last /\ (length last <= 1)%nat) /\
  passed c' = written c' /\
  concat (written c') = total /\
  batch_buffer c' = [] /\
  processed_count c' = Z.of_nat (length total).
Proof.
  intros (Hs & Hf & Hpw & Hc & Hp & Hl). unfold close.
  destruct (batch_buffer c) as [|x xs] eqn:Hb.
  - rewrite app_nil_r in Hc. subst total.
    split; [done|]. split; [exists []; rewrite app_nil_r; simpl; split; [done|lia]|].
    repeat split; done.
  - rewrite process_batch_all_ok. simpl. split; [done|].
    split; [exists [x :: xs]; simpl; split; [done|lia]|].
    rewrite Hpw, concat_app. simpl. rewrite app_nil_r, Hc.
    repeat split; [].
    rewrite Hp, <- Hc, length_app. simpl. lia.
Qed.

Lemma length_concat_const (n : nat) bs :
  Forall (fun b => length b = n) bs -> length (concat bs) = (length bs * n)%nat.
Proof.
  induction 1 as [|b bs Hb _ IH]; [done|]. simpl. rewrite length_app, IH, Hb. lia.
Qed.

End AllOk.




End BatchJsonProofs.

(* ===================================================================== *)
(** ** Proofs about FaultTolerantBatchConsumer *)
(* ===================================================================== *)

Module FaultTolerantProofs.
Import FaultTolerant FaultTolerantWorlds.

Section Proofs.
Variable A : Type.
Variable proc_env : nat -> attempt_env.
Variable dlq_ok : nat -> bool.
Variable rec_room : Z.
Implicit Types (s : ft A) (batch : list A).

Lemma process_batch_raise_frame batch s err s1 :
  _process_batch proc_env batch s = (Raise err, s1) -> frame s s1.
Proof.
  unfold _process_batch, _save_checkpoint, bind, gets, modify, try_except, raise, ret.
  destruct (proc_env (attempts s)) as [rf dfo sto wo svo]; simpl.
  destruct rf; [intros [= _ <-]; unfold frame; simpl; repeat split; done|].
  destruct dfo; [|intros [= _ <-]; unfold frame; simpl; repeat split; done].
  destruct wo; simpl; [destruct svo; simpl; intros [=]|].
  intros [= _ <-]. unfold frame; simpl. repeat split; lia.
Qed.

Lemma process_batch_fails batch s :
  fails (proc_env (attempts s)) = true ->
  exists err s1, _process_batch proc_env batch s = (Raise err, s1) /\ frame s s1.
Proof.
  intros Hf.
  destruct (_process_batch proc_env batch s) as [[[]|err] s1] eqn:E.
  - exfalso. revert E Hf.
    unfold _process_batch, _save_checkpoint, bind, gets, modify, try_except, raise, ret, fails.
    destruct (proc_env (attempts s)) as [rf dfo sto wo svo]; simpl.
    destruct rf, dfo, wo; simpl; try discriminate; destruct svo; discriminate.
  - exists err, s1. split; [done|]. eapply process_batch_raise_frame; done.
Qed.

(** The delays [d * 2 ** rc] slept before the retries, [0 <= rc <= R - 1],
    are at most the last one, so they fit [time.sleep] when that one does. *)
Lemma sleep_fits (d : Q) (rc mr : Z) (s : ft A) :
  (0 <= d)%Q -> 0 <= rc -> rc <= mr - 1 ->
  ns_fits (d * inject_Z (2 ^ (mr - 1))) = true ->
  sleep (d * inject_Z (2 ^ rc)) s = (Ok tt, s).
Proof.
  intros Hd Hrc Hle Hfit. unfold sleep, ns_fits in *.
  apply andb_prop in Hfit as [_ Hhi]. apply Qle_bool_iff in Hhi.
  assert (Hp : (0 <= d * inject_Z (2 ^ rc))%Q).
  { apply Qmult_le_0_compat; [done|].
    change 0%Q with (inject_Z 0). rewrite <- Zle_Qle. apply Z.pow_nonneg. lia. }
  assert (Hm : (d * inject_Z (2 ^ rc) <= d * inject_Z (2 ^ (mr - 1)))%Q).
  { rewrite !(Qmult_comm d). apply Qmult_le_compat_r; [|done].
    rewrite <- Zle_Qle. apply Z.pow_le_mono_r; lia. }
  assert (H10 : (0 <= inject_Z (10 ^ 9))%Q) by (unfold Qle; simpl; lia).
  replace (Qle_bool (inject_Z (- 2 ^ 63)) (d * inject_Z (2 ^ rc) * inject_Z (10 ^ 9)))
    with true.
  2:{ symmetry. apply Qle_bool_iff. apply Qle_trans with 0%Q; [unfold Qle; simpl; lia|].
      apply Qmult_le_0_compat; done. }
  replace (Qle_bool (d * inject_Z (2 ^ rc) * inject_Z (10 ^ 9)) (inject_Z (2 ^ 63 - 1)))
    with true.
  2:{ symmetry. apply Qle_bool_iff. eapply Qle_trans; [|exact Hhi].
      apply Qmult_le_compat_r; done. }
  replace (Qle_bool 0 (d * inject_Z (2 ^ rc))) with true; [done|].
  symmetry. apply Qle_bool_iff. done.
Qed.

(** [time.sleep] raises on a negative delay: [ValueError], or
    [OverflowError] when the delay is below its range. *)
Lemma sleep_negative (d : Q) (s : ft A) :
  (d < 0)%Q -> exists e, sleep d s = (Raise e, s) /\ (e = ValueError \/ e = OverflowError).
Proof.
  intros Hd. unfold sleep. destruct (ns_fits d).
  - replace (Qle_bool 0 d) with false; [eexists; split; [reflexivity|left; done]|].
    symmetry. apply not_true_iff_false. rewrite Qle_bool_iff. apply Qlt_not_le. done.
  - eexists; split; [reflexivity|right; done].
Qed.

Lemma send_to_dlq_spec batch err s :
  exists s', _send_to_dlq dlq_ok batch err s = (Ok tt, s') /\
    dlq_files s' = dlq_files s ++ (if dlq_ok (dlq_attempts s) then [(batch, err)] else []) /\
    dlq_attempts s' = S (dlq_attempts s) /\
    attempts s' = attempts s /\ error_count s' = error_count s /\
    retry_count s' = retry_count s /\ processed_count s' = processed_count s /\
    file_counter s' = file_counter s /\ checkpoints s' = checkpoints s /\
    parquet_files s' = parquet_files s.
Proof.
  unfold _send_to_dlq, try_except, bind, gets, modify, raise, ret. simpl.
  destruct (dlq_ok (dlq_attempts s)); simpl; eexists; repeat split; simpl;
    rewrite ?app_nil_r; done.
Qed.

(** [_process_batch_with_retry] when every invocation of [_process_batch]
    raises, from any [rc >= 0], with the retries within the limits. *)
Lemma retry_loop_all_fail (fuel : nat) batch (rc : Z) s r s' :
  (forall n, fails (proc_env n) = true) ->
  0 <= rc -> (Z.to_nat (max_retries s - rc) < fuel)%nat ->
  (0 <= retry_delay s)%Q -> rc <= rec_room -> max_retries s <= rec_room ->
  ns_fits (retry_delay s * inject_Z (2 ^ (max_retries s - 1))) = true ->
  retry_loop proc_env dlq_ok rec_room fuel batch rc s = (r, s') ->
  r = Ok tt /\
  attempts s' = (attempts s + S (Z.to_nat (max_retries s - rc)))%nat /\
  retry_count s' = retry_count s + Z.of_nat (Z.to_nat (max_retries s - rc)) /\
  error_count s' = error_count s + 1 /\
  processed_count s' = processed_count s /\ file_counter s' = file_counter s /\
  checkpoints s' = checkpoints s /\ parquet_files s' = parquet_files s /\
  (exists err, dlq_files s' = dlq_files s ++
     (if enable_dlq s && dlq_ok (dlq_attempts s) then [(batch, err)] else [])) /\
  dlq_attempts s' = (dlq_attempts s + (if enable_dlq s then 1 else 0))%nat.
Proof.
  intros Hall. revert rc s.
  induction fuel as [|fuel IH]; intros rc s Hrc Hfuel Hd Hdeep Hmr Hfit Hrun; [lia|].
  destruct (process_batch_fails batch s (Hall _))
    as (err & s1 & Hp & Ha1 & Hpc1 & Hfc1 & Hck1 & Hpq1 & Hec1 & Hrc1 & Hmr1 & Hrd1 & Hdl1 & Hbb1 & Hdf1 & Hda1).
  cbn [retry_loop] in Hrun.
  replace (rec_room <? rc) with false in Hrun by (symmetry; apply Z.ltb_ge; lia).
  unfold try_except in Hrun. rewrite Hp in Hrun.
  unfold bind, gets in Hrun. rewrite Hmr1 in Hrun.
  destruct (Z.ltb_spec rc (max_retries s)) as [Hlt|Hge].
  - rewrite Hrd1, (sleep_fits (retry_delay s) rc (max_retries s)) in Hrun
      by first [done|lia].
    unfold modify in Hrun.
    destruct fuel as [|fuel]; [lia|].
    set (s2 := upd_retries (fun k => k + 1) s1) in Hrun.
    destruct (IH (rc + 1) s2) as (Hr & Ha & Hrt & He & Hpc & Hfc & Hck & Hpq & Hdf & Hda);
      [lia|subst s2; simpl; lia|subst s2; simpl; rewrite Hrd1; done|lia|subst s2; simpl; lia|
       subst s2; simpl; rewrite Hrd1, Hmr1; done|done|].
    subst s2; simpl in *.
    repeat split; [done|lia|lia|lia|congruence|congruence|congruence|congruence| |].
    + destruct Hdf as [e' He']. exists e'. rewrite He', Hdf1, Hdl1, Hda1. done.
    + rewrite Hda, Hdl1, Hda1. done.
  - unfold modify in Hrun. simpl in Hrun. rewrite Hdl1 in Hrun.
    replace (Z.to_nat (max_retries s - rc)) with 0%nat by lia.
    destruct (enable_dlq s) eqn:Hen; simpl.
    + destruct (send_to_dlq_spec batch err (upd_errors (fun k => k + 1) s1))
        as (s3 & Hs3 & Hdf3 & Hda3 & Ha3 & He3 & Hrt3 & Hpc3 & Hfc3 & Hck3 & Hpq3).
      rewrite Hs3 in Hrun. injection Hrun as <- <-. simpl in *.
      repeat split; try lia; try congruence.
      exists err. rewrite Hdf3, Hda1, Hdf1. done.
    + unfold ret in Hrun. injection Hrun as <- <-. simpl.
      repeat split; try lia; try congruence.
      rewrite app_nil_r. congruence.
Qed.

(** With a negative [retry_delay] and [max_retries >= 1], a first failed
    attempt makes the retries raise before any counter is touched: within
    the recursion limit, [time.sleep] raises [ValueError] (or
    [OverflowError] for a delay below its range). *)
Lemma retry_negative_delay batch s :
  (retry_delay s < 0)%Q -> 1 <= max_retries s -> fails (proc_env (attempts s)) = true ->
  exists e s1, _process_batch_with_retry proc_env dlq_ok rec_room batch 0 s = (Raise e, s1) /\
    frame s s1 /\ (0 <= rec_room -> e = ValueError \/ e = OverflowError).
Proof.
  intros Hd Hmr Hf. unfold _process_batch_with_retry. cbn [retry_loop].
  destruct (Z.ltb_spec rec_room 0) as [Hneg|Hnn].
  - exists RecursionError, (tick_attempts s). split; [reflexivity|].
    split; [unfold frame; simpl; repeat split|lia].
  - destruct (process_batch_fails batch s Hf) as (err & s1 & Hp & Hfr).
    pose proof Hfr as (_ & _ & _ & _ & _ & _ & _ & Hmr1 & Hrd1 & _).
    unfold try_except. cbn beta iota. rewrite Hp.
    unfold bind, gets. rewrite Hmr1.
    replace (0 <? max_retries s) with true by (symmetry; apply Z.ltb_lt; lia).
    rewrite Hrd1.
    destruct (sleep_negative (retry_delay s * inject_Z (2 ^ 0)) s1)
      as (e & Hs & He); [change (2 ^ 0) with 1; rewrite Qmult_1_r; done|].
    rewrite Hs. exists e, s1. split; [reflexivity|]. split; [done|intros _; done].
Qed.

End Proofs.
End FaultTolerantProofs.

Module FaultTolerantClaims.
Import FaultTolerant FaultTolerantWorlds FaultTolerantProofs.






(** C7. [close()] returns normally from every state of the consumer and in
    every world, also when flushing the buffer or listing the DLQ raises. *)
Theorem c7_close_never_raises {A : Type} (proc_env : nat -> attempt_env)
    (dlq_ok : nat -> bool) (rec_room : Z) (glob_ok : bool) (s : ft A) :
  fst (close proc_env dlq_ok rec_room glob_ok s) = Ok tt.
Proof.
  unfold close, try_except.
  destruct (bind _ _ s) as [[[]|e] s']; reflexivity.
Qed.

(** The flush in [close] can raise: with a negative [retry_delay] the
    retry handler's [time.sleep] raises [ValueError]; [close] catches it
    and leaves the buffer in place. *)
Example close_flush_raises :
  let s := mkFt 2 0 0 0 [7%nat] 0 3 (-1) true [] [] [] 0 0 in
  fst (_process_batch_with_retry always_fail (fun _ => true) 10 [7%nat] 0 s) = Raise ValueError /\
  fst (close always_fail (fun _ => true) 10 true s) = Ok tt /\
  batch_buffer (snd (close always_fail (fun _ => true) 10 true s)) = [7%nat].
Proof. vm_compute. repeat split. Qed.

End FaultTolerantClaims.

(* ===================================================================== *)
(** ** Properties of the fault-tolerant consumer beyond the claims *)
(* ===================================================================== *)

Module FaultTolerantConsumeProofs.
Import Py FaultTolerant FaultTolerantWorlds FaultTolerantProofs FaultTolerantConsume.

Section Lemmas.
Variable A : Type.
Variable proc_env : nat -> attempt_env.
Variable dlq_ok : nat -> bool.
Variable rec_room : Z.
Implicit Types (s : ft A) (batch : list A).

(** A relation between the states before and after a step, kept by
    every step of a method, is kept by the method. *)
Section Keeps.
Variable R : ft A -> ft A -> Prop.
Hypothesis R_refl : forall s, R s s.
Hypothesis R_trans : forall s1 s2 s3, R s1 s2 -> R s2 s3 -> R s1 s3.

Lemma keeps_ret {X} (x : X) s : R s (snd (ret x s)).
Proof. apply R_refl. Qed.

Lemma keeps_raise {X} e s : R s (snd ((raise e : M A X) s)).
Proof. apply R_refl. Qed.

Lemma keeps_gets {X} (f : ft A -> X) s : R s (snd (gets f s)).
Proof. apply R_refl. Qed.

Lemma keeps_modify f s : R s (f s) -> R s (snd (modify f s)).
Proof. done. Qed.

Lemma keeps_bind {X Y} (m : M A X) (k : X -> M A Y) :
  (forall s, R s (snd (m s))) -> (forall x s, R s (snd (k x s))) ->
  forall s, R s (snd (bind m k s)).
Proof.
  intros Hm Hk s. unfold bind. specialize (Hm s).
  destruct (m s) as [[x|e] s'] eqn:E; simpl in *; [|done].
  eapply R_trans; [exact Hm|apply Hk].
Qed.

Lemma keeps_try {X} (m : M A X) (h : exn -> M A X) :
  (forall s, R s (snd (m s))) -> (forall e s, R s (snd (h e s))) ->
  forall s, R s (snd (try_except m h s)).
Proof.
  intros Hm Hh s. unfold try_except. specialize (Hm s).
  destruct (m s) as [[x|e] s'] eqn:E; simpl in *; [done|].
  eapply R_trans; [exact Hm|apply Hh].
Qed.

Lemma keeps_sleep d s : R s (snd ((sleep d : M A unit) s)).
Proof. unfold sleep. destruct (ns_fits d); [destruct (Qle_bool 0 d)|]; apply R_refl. Qed.

Lemma keeps_send_to_dlq batch err :
  (forall s, R s (tick_dlq_attempts s)) -> (forall s entry, R s (add_dlq entry s)) ->
  forall s, R s (snd (_send_to_dlq dlq_ok batch err s)).
Proof.
  intros Ht Ha. unfold _send_to_dlq.
  apply keeps_try; [|intros; apply keeps_ret].
  apply keeps_bind; [apply keeps_gets|intros n].
  apply keeps_bind; [intros s; apply keeps_modify, Ht|intros _ s].
  destruct (dlq_ok n); [apply keeps_modify, Ha|apply keeps_raise].
Qed.

(** The retries keep [R] if [_process_batch] and the counter updates do. *)
Lemma keeps_retry_loop batch :
  (forall s, R s (snd (_process_batch proc_env batch s))) ->
  (forall s, R s (tick_attempts s)) ->
  (forall s, R s (upd_retries (fun k => k + 1) s)) ->
  (forall s, R s (upd_errors (fun k => k + 1) s)) ->
  (forall s, R s (tick_dlq_attempts s)) -> (forall s entry, R s (add_dlq entry s)) ->
  forall fuel rc s, R s (snd (retry_loop proc_env dlq_ok rec_room fuel batch rc s)).
Proof.
  intros Hp Hta Hr He Ht Ha fuel. induction fuel as [|fuel IH]; intros rc; cbn [retry_loop];
    (apply keeps_try;
     [destruct (rec_room <? rc);
      [apply keeps_bind; [intros s; apply keeps_modify, Hta|intros _; apply keeps_raise]
      |exact Hp]
     |intros err]);
    (destruct (rec_room <? rc); [apply keeps_raise|]);
    (apply keeps_bind; [apply keeps_gets|intros mr]);
    (destruct (rc <? mr);
     [apply keeps_bind; [apply keeps_gets|intros d];
      apply keeps_bind; [apply keeps_sleep|intros _];
      apply keeps_bind; [intros s; apply keeps_modify, Hr|intros _]
     |apply keeps_bind; [intros s; apply keeps_modify, He|intros _];
      apply keeps_bind; [apply keeps_gets|intros dlq];
      destruct dlq; [apply keeps_send_to_dlq; done|apply keeps_ret]]).
  - apply keeps_ret.
  - apply IH.
Qed.

Lemma keeps_close glob_ok :
  (forall s b, R s (upd_buffer b s)) ->
  (forall batch s, R s (snd (_process_batch_with_retry proc_env dlq_ok rec_room batch 0 s))) ->
  forall s, R s (snd (close proc_env dlq_ok rec_room glob_ok s)).
Proof.
  intros Hb Hp. unfold close.
  apply keeps_try; [|intros; apply keeps_ret].
  apply keeps_bind; [apply keeps_gets|intros buf].
  apply keeps_bind.
  - destruct buf; [apply keeps_ret|].
    apply keeps_bind; [apply Hp|intros _ s; apply keeps_modify, Hb].
  - intros _. apply keeps_bind; [apply keeps_gets|intros dlq].
    destruct dlq, glob_ok; first [apply keeps_ret|apply keeps_raise].
Qed.

(** The same for the methods with a loop. *)
Lemma keeps_lift {X} (m : M A X) :
  (forall s, R s (snd (m s))) -> forall s, R s (snd (lift m s)).
Proof. intros Hm s. unfold lift. specialize (Hm s). destruct (m s). done. Qed.

Lemma keeps_bindD {X Y} (m : MD A X) (k : X -> MD A Y) :
  (forall s, R s (snd (m s))) -> (forall x s, R s (snd (k x s))) ->
  forall s, R s (snd (bindD m k s)).
Proof.
  intros Hm Hk s. unfold bindD. specialize (Hm s).
  destruct (m s) as [[[x|e]|] s'] eqn:E; simpl in *; [|done|done].
  eapply R_trans; [exact Hm|apply Hk].
Qed.

Lemma keeps_tryD {X} (m : MD A X) (h : exn -> M A X) :
  (forall s, R s (snd (m s))) -> (forall e s, R s (snd (h e s))) ->
  forall s, R s (snd (tryD m h s)).
Proof.
  intros Hm Hh s. unfold tryD. specialize (Hm s).
  destruct (m s) as [[[x|e]|] s'] eqn:E; simpl in *; try done.
  eapply R_trans; [exact Hm|]. apply keeps_lift, Hh.
Qed.

(** So do [consume] and [close], if [_process_batch_with_retry] and the
    buffer and error counter updates keep [R]. *)
Lemma keeps_consume_loop :
  (forall s b, R s (upd_buffer b s)) ->
  (forall batch s, R s (snd (_process_batch_with_retry proc_env dlq_ok rec_room batch 0 s))) ->
  forall fuel s, R s (snd (consume_loop proc_env dlq_ok rec_room fuel s)).
Proof.
  intros Hb Hp fuel. induction fuel as [|fuel IH]; intros s; cbn [consume_loop]; [apply R_refl|].
  destruct (_ <=? _); [|apply R_refl].
  apply keeps_bindD; [apply keeps_lift; intros; apply keeps_modify, Hb|intros _].
  apply keeps_bindD; [apply keeps_lift, Hp|intros _; apply IH].
Qed.

Lemma keeps_consume fuel elements :
  (forall s b, R s (upd_buffer b s)) -> (forall s, R s (upd_errors (fun k => k + 1) s)) ->
  (forall batch s, R s (snd (_process_batch_with_retry proc_env dlq_ok rec_room batch 0 s))) ->
  forall s, R s (snd (consume proc_env dlq_ok rec_room fuel elements s)).
Proof.
  intros Hb He Hp. unfold consume.
  apply keeps_tryD; [|intros; apply keeps_modify, He].
  apply keeps_bindD; [apply keeps_lift; intros; apply keeps_modify, Hb|intros _].
  apply keeps_consume_loop; done.
Qed.

Lemma keeps_consume_calls fuel glob_ok calls :
  (forall s b, R s (upd_buffer b s)) -> (forall s, R s (upd_errors (fun k => k + 1) s)) ->
  (forall batch s, R s (snd (_process_batch_with_retry proc_env dlq_ok rec_room batch 0 s))) ->
  forall s, R s (snd (consume_calls proc_env dlq_ok rec_room fuel glob_ok calls s)).
Proof.
  intros Hb He Hp. induction calls as [|el calls IH]; cbn [consume_calls].
  - apply keeps_lift, keeps_close; done.
  - apply keeps_bindD; [apply keeps_consume; done|intros _; apply IH].
Qed.

End Keeps.

(** One step of a loop that runs a method of the consumer. *)
Lemma bindD_lift_ok {X Y} (m : M A X) (k : X -> MD A Y) s x s1 :
  m s = (Ok x, s1) -> bindD (lift m) k s = k x s1.
Proof. intros H. unfold bindD, lift. rewrite H. done. Qed.

Lemma bindD_lift_raise {X Y} (m : M A X) (k : X -> MD A Y) s e s1 :
  m s = (Raise e, s1) -> bindD (lift m) k s = (Some (Raise e), s1).
Proof. intros H. unfold bindD, lift. rewrite H. done. Qed.

(** [_process_batch] leaves the configuration and the buffer alone. *)
Lemma process_batch_keeps batch s :
  config_same s (snd (_process_batch proc_env batch s)) /\
  batch_buffer (snd (_process_batch proc_env batch s)) = batch_buffer s.
Proof.
  unfold _process_batch, _save_checkpoint, bind, gets, modify, try_except, raise, ret.
  destruct (proc_env (attempts s)) as [rf dfo sto wo svo]; simpl.
  destruct rf, dfo, wo, svo; simpl; repeat split.
Qed.

(** What a normal return of [_process_batch] did. *)
Lemma process_batch_ok batch s s1 :
  _process_batch proc_env batch s = (Ok tt, s1) ->
  file_counter s1 = file_counter s + 1 /\
  parquet_files s1 = parquet_files s ++ [batch] /\
  processed_count s1 = processed_count s + Z.of_nat (length batch) /\
  (checkpoints s1 = checkpoints s \/
   checkpoints s1 = checkpoints s ++
     [(file_counter s + 1, processed_count s + Z.of_nat (length batch))]) /\
  error_count s1 = error_count s /\ dlq_files s1 = dlq_files s /\
  enable_dlq s1 = enable_dlq s.
Proof.
  unfold _process_batch, _save_checkpoint, bind, gets, modify, try_except, raise, ret.
  destruct (proc_env (attempts s)) as [rf dfo sto wo svo]; simpl.
  destruct rf, dfo, wo, svo; simpl; intros H; inversion H; subst; simpl;
    repeat split; auto.
Qed.

(** [ckpt_consistent] only looks at the counters and the files. *)
Lemma ckpt_congr f0 p0 s s' :
  file_counter s' = file_counter s -> processed_count s' = processed_count s ->
  parquet_files s' = parquet_files s -> checkpoints s' = checkpoints s ->
  ckpt_consistent f0 p0 s -> ckpt_consistent f0 p0 s'.
Proof. unfold ckpt_consistent. intros -> -> -> ->. done. Qed.


(** [_process_batch] keeps the checkpoints consistent, whatever happens. *)
Lemma process_batch_ckpt f0 p0 batch s :
  ckpt_consistent f0 p0 s -> ckpt_consistent f0 p0 (snd (_process_batch proc_env batch s)).
Proof.
  destruct (_process_batch proc_env batch s) as [[[]|err] s1] eqn:E; simpl.
  - destruct (process_batch_ok batch s s1 E) as (Hfc & Hpq & Hpc & Hck & _).
    intros (Hf & Hp & Hc). unfold ckpt_consistent.
    rewrite Hfc, Hpq, Hpc, Hf, Hp, concat_app, !length_app. simpl.
    rewrite ?app_nil_r, ?length_app.
    split; [lia|]. split; [lia|].
    assert (Hold : Forall (fun kn => exists fs, prefix fs (parquet_files s ++ [batch]) /\
              kn = (f0 + Z.of_nat (length fs), p0 + Z.of_nat (length (concat fs))))
              (checkpoints s)).
    { eapply Forall_impl; [exact Hc|]. intros kn (fs & Hfs & ->).
      exists fs. split; [apply prefix_app_r; done|done]. }
    destruct Hck as [-> | ->]; [done|].
    apply Forall_app; split; [done|]. constructor; [|constructor].
    exists (parquet_files s ++ [batch]). split; [done|].
    rewrite concat_app, !length_app. simpl. rewrite app_nil_r. f_equal; lia.
  - destruct (process_batch_raise_frame A proc_env batch s err s1 E)
      as (_ & Hp & Hf & Hc & Hq & _).
    apply ckpt_congr; done.
Qed.


Lemma config_same_refl s : config_same s s.
Proof. unfold config_same. repeat split. Qed.

Lemma config_same_trans s1 s2 s3 :
  config_same s1 s2 -> config_same s2 s3 -> config_same s1 s3.
Proof. unfold config_same. intros (? & ? & ? & ?) (? & ? & ? & ?). repeat split; congruence. Qed.


(** The retries leave the configuration and the buffer alone. *)
Lemma retry_loop_keeps fuel batch rc s :
  config_same s (snd (retry_loop proc_env dlq_ok rec_room fuel batch rc s)) /\
  batch_buffer (snd (retry_loop proc_env dlq_ok rec_room fuel batch rc s)) = batch_buffer s.
Proof.
  apply (keeps_retry_loop (fun s s' => config_same s s' /\ batch_buffer s' = batch_buffer s)).
  - intros s0. split; [apply config_same_refl|done].
  - intros s1 s2 s3 [Hc1 Hb1] [Hc2 Hb2]. split; [eapply config_same_trans; eauto|congruence].
  - apply process_batch_keeps.
  - intros s0. unfold config_same; repeat split.
  - intros s0. unfold config_same; repeat split.
  - intros s0. unfold config_same; repeat split.
  - intros s0. unfold config_same; repeat split.
  - intros s0 entry. unfold config_same; repeat split.
Qed.

(** The retries keep the checkpoints consistent, whatever happens. *)
Lemma retry_loop_ckpt f0 p0 fuel batch rc s :
  ckpt_consistent f0 p0 s ->
  ckpt_consistent f0 p0 (snd (retry_loop proc_env dlq_ok rec_room fuel batch rc s)).
Proof.
  revert s. apply (keeps_retry_loop (fun s s' => ckpt_consistent f0 p0 s -> ckpt_consistent f0 p0 s'));
    try (intros s0; try intros entry; apply (ckpt_congr f0 p0 s0); done).
  - intros s1 s2 s3 H1 H2 H. apply H2, H1, H.
  - apply process_batch_ckpt.
Qed.

(** [batch_outcome] only looks at the files and the counters. *)
Lemma batch_outcome_congr batch s0 s s' :
  parquet_files s0 = parquet_files s -> file_counter s0 = file_counter s ->
  processed_count s0 = processed_count s -> error_count s0 = error_count s ->
  dlq_files s0 = dlq_files s -> enable_dlq s0 = enable_dlq s ->
  batch_outcome batch s0 s' -> batch_outcome batch s s'.
Proof. unfold batch_outcome. intros -> -> -> -> -> ->. done. Qed.

(** [retries_fit] only looks at the configuration. *)
Lemma retries_fit_congr s s' :
  config_same s s' -> retries_fit rec_room s -> retries_fit rec_room s'.
Proof. unfold config_same, retries_fit. intros (_ & -> & -> & _). done. Qed.

(** With a non-negative [retry_delay] and the retries within the limits,
    the retries return normally and account for the batch exactly once. *)
Lemma retry_loop_outcome fuel batch rc s r s' :
  0 <= rc -> (Z.to_nat (max_retries s - rc) < fuel)%nat -> (0 <= retry_delay s)%Q ->
  rc <= rec_room -> max_retries s <= rec_room ->
  ns_fits (retry_delay s * inject_Z (2 ^ (max_retries s - 1))) = true ->
  retry_loop proc_env dlq_ok rec_room fuel batch rc s = (r, s') ->
  r = Ok tt /\ batch_outcome batch s s'.
Proof.
  revert rc s.
  induction fuel as [|fuel IH]; intros rc s Hrc Hfuel Hd Hdeep Hmr Hfit Hrun; [lia|].
  cbn [retry_loop] in Hrun.
  replace (rec_room <? rc) with false in Hrun by (symmetry; apply Z.ltb_ge; lia).
  unfold try_except in Hrun. cbn beta iota in Hrun.
  destruct (_process_batch proc_env batch s) as [[[]|err] s1] eqn:E.
  - injection Hrun as <- <-. split; [done|].
    destruct (process_batch_ok batch s s1 E) as (Hfc & Hpq & Hpc & _ & He & Hdl & _).
    left. repeat split; done.
  - destruct (process_batch_raise_frame A proc_env batch s err s1 E)
      as (_ & Hpc1 & Hfc1 & _ & Hpq1 & Hec1 & _ & Hmr1 & Hrd1 & Hen1 & _ & Hdl1 & _).
    unfold bind, gets in Hrun. rewrite Hmr1 in Hrun.
    destruct (Z.ltb_spec rc (max_retries s)) as [Hlt|Hge].
    + rewrite Hrd1, (sleep_fits A (retry_delay s) rc (max_retries s)) in Hrun
        by first [done|lia].
      unfold modify in Hrun.
      destruct fuel as [|fuel]; [lia|].
      destruct (IH (rc + 1) (upd_retries (fun k => k + 1) s1)) as [Hr Ho];
        [lia|simpl; lia|simpl; rewrite Hrd1; done|lia|simpl; lia|
         simpl; rewrite Hrd1, Hmr1; done|exact Hrun|].
      split; [done|]. revert Ho. apply batch_outcome_congr; simpl; done.
    + unfold modify in Hrun. simpl in Hrun. rewrite Hen1 in Hrun.
      destruct (enable_dlq s) eqn:Hen.
      * destruct (send_to_dlq_spec A dlq_ok batch err (upd_errors (fun k => k + 1) s1))
          as (s3 & Hs3 & Hdf3 & _ & _ & He3 & _ & Hpc3 & Hfc3 & _ & Hpq3).
        rewrite Hs3 in Hrun. injection Hrun as <- <-. split; [done|].
        right. simpl in *. rewrite Hpq3, Hfc3, Hpc3, He3, Hdf3, Hpq1, Hfc1, Hpc1, Hec1, Hdl1.
        repeat split; [].
        destruct (dlq_ok (dlq_attempts s1)).
        -- right. split; [done|]. exists err. done.
        -- left. apply app_nil_r.
      * unfold ret in Hrun. injection Hrun as <- <-. split; [done|].
        right. simpl. rewrite Hpq1, Hfc1, Hpc1, Hec1, Hdl1. repeat split; left; done.
Qed.


Lemma chunks_short n (l : list A) : (length l < n)%nat -> chunks n l = [].
Proof. intros H. unfold chunks. rewrite Nat.div_small by done. done. Qed.

Lemma chunks_step n (l : list A) : (0 < n)%nat -> (n <= length l)%nat ->
  chunks n l = take n l :: chunks n (drop n l).
Proof.
  intros Hn Hl. unfold chunks. rewrite length_drop.
  replace (length l / n)%nat with (S ((length l - n) / n)).
  2:{ replace (length l) with (length l - n + 1 * n)%nat at 2 by lia.
      rewrite Nat.div_add by lia. lia. }
  simpl. f_equal. rewrite <- seq_shift, map_map.
  apply map_ext. intros i. rewrite drop_drop. do 2 f_equal; lia.
Qed.

Lemma chunks_length n (l : list A) : (0 < n)%nat ->
  Forall (fun b => length b = n) (chunks n l).
Proof.
  intros Hn. unfold chunks. apply Forall_map, Forall_seq. intros i Hi.
  apply length_take_le. rewrite length_drop.
  pose proof (Nat.Div0.mul_div_le (length l) n). nia.
Qed.

(** The [consume] loop with a non-negative [retry_delay], [batch_size >= 1],
    the retries within the limits and enough fuel. *)
Lemma consume_loop_spec fuel s r s' :
  1 <= batch_size s -> (length (batch_buffer s) < fuel)%nat -> (0 <= retry_delay s)%Q ->
  retries_fit rec_room s ->
  consume_loop proc_env dlq_ok rec_room fuel s = (r, s') ->
  let cs := chunks (Z.to_nat (batch_size s)) (batch_buffer s) in
  r = Some (Ok tt) /\ config_same s s' /\
  concat cs ++ batch_buffer s' = batch_buffer s /\
  (length (batch_buffer s') < Z.to_nat (batch_size s))%nat /\
  exists sub, sublist sub cs /\
    parquet_files s' = parquet_files s ++ sub /\
    file_counter s' = file_counter s + Z.of_nat (length sub) /\
    processed_count s' = processed_count s + Z.of_nat (length (concat sub)) /\
    error_count s' = error_count s + Z.of_nat (length cs - length sub) /\
    exists d, dlq_files s' = dlq_files s ++ d /\ Forall (fun e => In e.1 cs) d.
Proof.
  revert s. induction fuel as [|fuel IH]; intros s HB Hlen Hd Hfit Hrun; [lia|].
  cbn [consume_loop] in Hrun.
  pose proof Hfit as (Hf1 & Hr0 & Hmr).
  set (n := Z.to_nat (batch_size s)). set (buf := batch_buffer s) in *.
  destruct (Z.leb_spec (batch_size s) (Z.of_nat (length buf))) as [Hle|Hlt].
  - unfold py_take, py_drop in Hrun.
    replace (0 <=? batch_size s) with true in Hrun by (symmetry; apply Z.leb_le; lia).
    fold n in Hrun.
    pose (s0 := upd_buffer (drop n buf) s).
    rewrite (bindD_lift_ok (modify (upd_buffer (drop n buf))) _ s tt s0 eq_refl) in Hrun.
    destruct (_process_batch_with_retry proc_env dlq_ok rec_room (take n buf) 0 s0)
      as [r1 s1] eqn:Er.
    pose proof Er as Er'.
    pose proof (retry_loop_keeps (S (Z.to_nat (max_retries s0 - 0))) (take n buf) 0 s0) as Hk.
    unfold _process_batch_with_retry in Er. rewrite Er in Hk. simpl in Hk.
    destruct Hk as ((Hbs1 & Hmr1 & Hrd1 & Hen1) & Hbuf1).
    destruct (retry_loop_outcome (S (Z.to_nat (max_retries s0 - 0))) (take n buf) 0 s0 r1 s1
                ltac:(lia) ltac:(lia) Hd Hr0 Hmr Hf1 Er) as [-> Ho].
    rewrite (bindD_lift_ok _ _ s0 tt s1 Er') in Hrun.
    assert (Hfit1 : retries_fit rec_room s1).
    { apply (retries_fit_congr s); [|done].
      unfold config_same. simpl in *. repeat split; done. }
    destruct (IH s1) as (Hr & Hc & Hcat & Hrem & sub & Hsub & Hpq & Hfc & Hpc & He & d & Hdl & Hdin);
      [simpl in *; lia|rewrite Hbuf1; simpl; rewrite length_drop; lia|
       rewrite Hrd1; done|done|done|].
    simpl in Hbs1, Hmr1, Hrd1, Hen1, Hbuf1.
    rewrite Hbuf1, Hbs1 in *. fold n in Hcat, Hrem, Hsub, He, Hdin.
    assert (Hcs : chunks n buf = take n buf :: chunks n (drop n buf))
      by (apply chunks_step; lia).
    rewrite Hcs. split; [done|].
    split; [unfold config_same in *; destruct Hc as (? & ? & ? & ?); repeat split; congruence|].
    split; [simpl; rewrite <- app_assoc, Hcat; apply take_drop|].
    split; [done|].
    pose proof (sublist_length _ _ Hsub) as Hsl.
    destruct Ho as [(Hq & Hf & Hp & Hee & Hd1) | (Hq & Hf & Hp & Hee & Hd1)];
      simpl in Hq, Hf, Hp, Hee, Hd1.
    + exists (take n buf :: sub). split; [constructor; done|].
      rewrite Hpq, Hq, <- app_assoc. split; [done|].
      simpl. rewrite length_app. split; [lia|]. split; [lia|]. split; [lia|].
      exists d. rewrite Hdl, Hd1. split; [done|].
      eapply Forall_impl; [exact Hdin|]. intros e He'. right. done.
    + exists sub. split; [apply (sublist_cons _ _ _); done|].
      rewrite Hpq, Hq. split; [done|].
      simpl. split; [lia|]. split; [lia|]. split; [lia|].
      destruct Hd1 as [Hd1 | (_ & err & Hd1)].
      * exists d. rewrite Hdl, Hd1. split; [done|].
        eapply Forall_impl; [exact Hdin|]. intros e He'. right. done.
      * exists ((take n buf, err) :: d). rewrite Hdl, Hd1, <- app_assoc. split; [done|].
        constructor; [left; done|].
        eapply Forall_impl; [exact Hdin|]. intros e He'. right. done.
  - injection Hrun as <- <-.
    rewrite chunks_short by (unfold n; lia). simpl.
    split; [done|]. split; [apply config_same_refl|].
    split; [done|]. split; [unfold n, buf in *; lia|].
    exists []. split; [apply sublist_nil_l|]. rewrite app_nil_r.
    split; [done|]. simpl. split; [lia|]. split; [lia|]. split; [lia|].
    exists []. rewrite app_nil_r. split; [done|constructor].
Qed.

(** [close()] with a non-negative [retry_delay] and the retries within
    the limits. *)
Lemma ft_close_spec glob_ok s r s' :
  (0 <= retry_delay s)%Q -> retries_fit rec_room s ->
  close proc_env dlq_ok rec_room glob_ok s = (r, s') ->
  r = Ok tt /\ batch_buffer s' = [] /\ config_same s s' /\
  ((batch_buffer s = [] /\ s' = s) \/
   (batch_buffer s <> [] /\ batch_outcome (batch_buffer s) s s')).
Proof.
  intros Hd (Hf1 & Hr0 & Hmr) Hrun. unfold close in Hrun.
  remember (_process_batch_with_retry proc_env dlq_ok rec_room) as P eqn:HP.
  unfold try_except, bind, gets, modify, ret, raise in Hrun.
  destruct (batch_buffer s) as [|x xs] eqn:Hb.
  - destruct (enable_dlq s), glob_ok; injection Hrun as <- <-;
      (split; [done|]; split; [done|]; split; [apply config_same_refl|left; done]).
  - destruct (P (x :: xs) 0 s) as [r1 s1] eqn:E.
    rewrite HP in E. unfold _process_batch_with_retry in E.
    pose proof (retry_loop_keeps (S (Z.to_nat (max_retries s - 0))) (x :: xs) 0 s) as Hk.
    rewrite E in Hk. simpl in Hk. destruct Hk as [Hc _].
    destruct (retry_loop_outcome (S (Z.to_nat (max_retries s - 0))) (x :: xs) 0 s r1 s1
                ltac:(lia) ltac:(lia) Hd Hr0 Hmr Hf1 E) as [-> Ho].
    assert (Hfin : r = Ok tt /\ s' = upd_buffer [] s1)
      by (destruct (enable_dlq (upd_buffer [] s1)), glob_ok; injection Hrun as <- <-; done).
    destruct Hfin as [-> ->]. split; [done|]. split; [done|].
    split; [unfold config_same in *; simpl; done|].
    right. split; [done|].
    unfold batch_outcome in *. simpl. done.
Qed.

(** [consume] with a non-negative [retry_delay], [batch_size >= 1], the
    retries within the limits and enough fuel. *)
Lemma consume_spec fuel elements s r s' :
  1 <= batch_size s -> (0 <= retry_delay s)%Q -> retries_fit rec_room s ->
  (length (batch_buffer s ++ elements) < fuel)%nat ->
  consume proc_env dlq_ok rec_room fuel elements s = (r, s') ->
  let cs := chunks (Z.to_nat (batch_size s)) (batch_buffer s ++ elements) in
  r = Some (Ok tt) /\ config_same s s' /\
  concat cs ++ batch_buffer s' = batch_buffer s ++ elements /\
  (length (batch_buffer s') < Z.to_nat (batch_size s))%nat /\
  exists sub, sublist sub cs /\
    parquet_files s' = parquet_files s ++ sub /\
    file_counter s' = file_counter s + Z.of_nat (length sub) /\
    processed_count s' = processed_count s + Z.of_nat (length (concat sub)) /\
    error_count s' = error_count s + Z.of_nat (length cs - length sub) /\
    exists d, dlq_files s' = dlq_files s ++ d /\ Forall (fun e => In e.1 cs) d.
Proof.
  intros HB Hd Hfit Hlen Hrun. unfold consume, tryD in Hrun.
  pose (s0 := upd_buffer (batch_buffer s ++ elements) s).
  rewrite (bindD_lift_ok (modify (fun s => upd_buffer (batch_buffer s ++ elements) s)) _
             s tt s0 eq_refl) in Hrun.
  assert (Hfit0 : retries_fit rec_room s0) by exact Hfit.
  destruct (consume_loop proc_env dlq_ok rec_room fuel s0) as [r0 s1] eqn:E.
  destruct (consume_loop_spec fuel s0 r0 s1 HB Hlen Hd Hfit0 E) as (-> & Hc & Hrest).
  injection Hrun as <- <-. split; [done|].
  split; [|exact Hrest].
  unfold config_same in *. simpl in Hc. done.
Qed.

(** A sequence of [consume] calls, then [close()], with a non-negative
    [retry_delay], [batch_size >= 1], the retries within the limits and
    enough fuel. *)
Lemma consume_calls_spec fuel glob_ok calls s r s' :
  1 <= batch_size s -> (0 <= retry_delay s)%Q -> retries_fit rec_room s ->
  (length (batch_buffer s) < Z.to_nat (batch_size s))%nat ->
  (Z.to_nat (batch_size s) + length (concat calls) <= fuel)%nat ->
  consume_calls proc_env dlq_ok rec_room fuel glob_ok calls s = (r, s') ->
  r = Some (Ok tt) /\ batch_buffer s' = [] /\
  exists bs sub, concat bs = batch_buffer s ++ concat calls /\
    Forall (fun b => (0 < length b <= Z.to_nat (batch_size s))%nat) bs /\
    sublist sub bs /\ parquet_files s' = parquet_files s ++ sub /\
    error_count s' = error_count s + Z.of_nat (length bs - length sub).
Proof.
  revert s r s'.
  induction calls as [|el calls IH]; intros s r s' HB Hd Hfit Hlen Hfuel Hrun;
    cbn [consume_calls] in Hrun.
  - unfold lift in Hrun.
    destruct (close proc_env dlq_ok rec_room glob_ok s) as [r0 s0] eqn:Ec.
    injection Hrun as <- <-.
    destruct (ft_close_spec glob_ok s r0 s0 Hd Hfit Ec)
      as (-> & Hb & _ & [(Hb0 & ->) | (Hb0 & Ho)]).
    all: split; [done|].
    + split; [done|]. exists [], []. rewrite Hb0. simpl.
      repeat split; [constructor|apply sublist_nil_l|rewrite app_nil_r; done|lia].
    + split; [done|].
      destruct (batch_buffer s) as [|x xs] eqn:Hbs; [done|].
      assert (Hf : Forall (fun b => (0 < length b <= Z.to_nat (batch_size s))%nat) [x :: xs])
        by (constructor; [simpl in *; lia|constructor]).
      destruct Ho as [(Hq & _ & _ & He & _) | (Hq & _ & _ & He & _)].
      * exists ([x :: xs]), ([x :: xs]). simpl. rewrite app_nil_r.
        repeat split; [done|constructor; apply sublist_nil_l|done|lia].
      * exists ([x :: xs]), []. simpl. rewrite app_nil_r.
        repeat split; [done|apply sublist_nil_l|rewrite app_nil_r; done|lia].
  - simpl in Hfuel. rewrite length_app in Hfuel.
    destruct (consume proc_env dlq_ok rec_room fuel el s) as [r1 s1] eqn:E1.
    destruct (consume_spec fuel el s r1 s1 HB Hd Hfit ltac:(rewrite length_app; lia) E1)
      as (-> & Hc1 & Hcat & Hrem & sub1 & Hsub1 & Hq1 & _ & _ & He1 & _).
    pose proof Hc1 as (Hbs1 & _ & Hrd1 & _).
    unfold bindD in Hrun. rewrite E1 in Hrun.
    destruct (IH s1 r s') as (Hr & Hb & bs & sub & Hc & Hf & Hsub & Hq & He);
      [lia|rewrite Hrd1; done|apply (retries_fit_congr s); done|rewrite Hbs1; done|
       rewrite Hbs1; lia|done|].
    split; [done|]. split; [done|].
    exists (chunks (Z.to_nat (batch_size s)) (batch_buffer s ++ el) ++ bs), (sub1 ++ sub).
    split; [rewrite concat_app, Hc, app_assoc, Hcat; simpl; rewrite <- app_assoc; done|].
    split.
    { apply Forall_app; split.
      - eapply Forall_impl; [apply chunks_length; lia|]. simpl. intros b ->. lia.
      - rewrite Hbs1 in Hf. done. }
    split; [apply sublist_app; done|].
    split; [rewrite Hq, Hq1, app_assoc; done|].
    pose proof (sublist_length _ _ Hsub1). pose proof (sublist_length _ _ Hsub).
    rewrite He, He1, !length_app. lia.
Qed.

(** [close()] when the flush raises. *)
Lemma close_negative glob_ok s :
  (retry_delay s < 0)%Q -> 1 <= max_retries s -> batch_buffer s <> [] ->
  fails (proc_env (attempts s)) = true ->
  exists s1, close proc_env dlq_ok rec_room glob_ok s = (Ok tt, s1) /\ frame s s1.
Proof.
  intros Hd Hmr Hne Hf.
  destruct (retry_negative_delay A proc_env dlq_ok rec_room (batch_buffer s) s Hd Hmr Hf)
    as (e & s1 & Hr & Hfr & _).
  exists s1. split; [|done].
  unfold close. remember (_process_batch_with_retry proc_env dlq_ok rec_room) as P eqn:HP.
  unfold try_except, bind, gets.
  destruct (batch_buffer s) as [|x xs]; [done|]. rewrite Hr. done.
Qed.

(** [consume] when the first batch's retries raise. *)
Lemma consume_negative fuel elements s :
  (retry_delay s < 0)%Q -> 1 <= max_retries s -> 1 <= batch_size s ->
  batch_size s <= Z.of_nat (length (batch_buffer s ++ elements)) ->
  fails (proc_env (attempts s)) = true ->
  exists s1, consume proc_env dlq_ok rec_room (S fuel) elements s =
               (Some (Ok tt), upd_errors (fun k => k + 1) s1) /\
    frame (upd_buffer (drop (Z.to_nat (batch_size s)) (batch_buffer s ++ elements)) s) s1.
Proof.
  intros Hd Hmr HB Hle Hf.
  set (s0 := upd_buffer (drop (Z.to_nat (batch_size s)) (batch_buffer s ++ elements)) s).
  destruct (retry_negative_delay A proc_env dlq_ok rec_room
              (take (Z.to_nat (batch_size s)) (batch_buffer s ++ elements)) s0 Hd Hmr Hf)
    as (e & s1 & Hr & Hfr & _).
  exists s1. split; [|done].
  unfold consume, tryD.
  rewrite (bindD_lift_ok (modify (fun s => upd_buffer (batch_buffer s ++ elements) s)) _
             s tt (upd_buffer (batch_buffer s ++ elements) s) eq_refl).
  cbn [consume_loop batch_buffer batch_size upd_buffer].
  replace (batch_size s <=? Z.of_nat (length (batch_buffer s ++ elements))) with true
    by (symmetry; apply Z.leb_le; done).
  unfold py_take, py_drop.
  replace (0 <=? batch_size s) with true by (symmetry; apply Z.leb_le; lia).
  rewrite (bindD_lift_ok (modify (upd_buffer (drop (Z.to_nat (batch_size s))
                                                 (batch_buffer s ++ elements)))) _
             (upd_buffer (batch_buffer s ++ elements) s) tt s0 eq_refl).
  rewrite (bindD_lift_raise _ _ s0 e s1 Hr). reflexivity.
Qed.

(** Every method keeps the checkpoints consistent, in every world and
    whatever [retry_delay] is. *)
Lemma consume_calls_ckpt f0 p0 fuel glob_ok calls s :
  ckpt_consistent f0 p0 s ->
  ckpt_consistent f0 p0 (snd (consume_calls proc_env dlq_ok rec_room fuel glob_ok calls s)).
Proof.
  revert s.
  apply (keeps_consume_calls (fun s s' => ckpt_consistent f0 p0 s -> ckpt_consistent f0 p0 s'));
    try (intros s0; try intros b; apply (ckpt_congr f0 p0 s0); done).
  - intros s1 s2 s3 H1 H2 H. apply H2, H1, H.
  - intros batch s0. unfold _process_batch_with_retry. apply retry_loop_ckpt.
Qed.

Lemma process_batch_counts batch s :
  attempts (snd (_process_batch proc_env batch s)) = S (attempts s) /\
  retry_count (snd (_process_batch proc_env batch s)) = retry_count s /\
  error_count (snd (_process_batch proc_env batch s)) = error_count s.
Proof.
  unfold _process_batch, _save_checkpoint, bind, gets, modify, try_except, raise, ret.
  destruct (proc_env (attempts s)) as [rf dfo sto wo svo]; simpl.
  destruct rf, dfo, wo, svo; simpl; repeat split.
Qed.

(** The retries, in every world, for every [retry_delay] and every
    recursion limit. *)
Lemma retry_loop_bound fuel batch rc s :
  0 <= rc -> (Z.to_nat (max_retries s - rc) < fuel)%nat ->
  let s' := snd (retry_loop proc_env dlq_ok rec_room fuel batch rc s) in
  Z.of_nat (attempts s') = Z.of_nat (attempts s) + 1 + (retry_count s' - retry_count s) /\
  0 <= retry_count s' - retry_count s <= Z.max 0 (max_retries s - rc) /\
  0 <= error_count s' - error_count s <= 1.
Proof.
  revert rc s. induction fuel as [|fuel IH]; intros rc s Hrc Hfuel; [lia|]. cbv zeta.
  cbn [retry_loop]. unfold try_except.
  destruct (rec_room <? rc).
  { unfold bind, modify, raise. simpl. lia. }
  cbn beta iota.
  pose proof (process_batch_counts batch s) as (Ha1 & Hr1 & He1).
  destruct (_process_batch proc_env batch s) as [[[]|err] s1] eqn:E;
    simpl in Ha1, Hr1, He1; [simpl; lia|].
  destruct (process_batch_raise_frame A proc_env batch s err s1 E)
    as (_ & _ & _ & _ & _ & _ & _ & Hmr1 & _).
  unfold bind, gets; rewrite Hmr1.
  destruct (Z.ltb_spec rc (max_retries s)) as [Hlt|Hge].
  - unfold sleep.
    destruct (ns_fits (retry_delay s1 * inject_Z (2 ^ rc)));
      [destruct (Qle_bool 0 (retry_delay s1 * inject_Z (2 ^ rc)))|];
      unfold ret, raise, modify; simpl; try lia.
    destruct fuel as [|fuel]; [lia|].
    destruct (IH (rc + 1) (upd_retries (fun k => k + 1) s1) ltac:(lia) ltac:(simpl; lia))
      as (Ha & Hr & He).
    cbn [attempts retry_count error_count max_retries upd_retries] in Ha, Hr, He. lia.
  - unfold modify; simpl. destruct (enable_dlq s1).
    + destruct (send_to_dlq_spec A dlq_ok batch err (upd_errors (fun k => k + 1) s1))
        as (s3 & -> & _ & _ & Ha3 & He3 & Hr3 & _); simpl in *; lia.
    + unfold ret; simpl; lia.
Qed.

End Lemmas.



(** In every world, for every [retry_delay] and every recursion limit,
    [_process_batch_with_retry(batch)] invokes [_process_batch] at most
    [max(R, 0) + 1] times, [R] being [max_retries]: each invocation after
    the first follows one increment of [retry_count]. [error_count] goes
    up by at most one. *)
Theorem retry_bounded_attempts {A : Type} (proc_env : nat -> attempt_env)
    (dlq_ok : nat -> bool) (rec_room : Z) (batch : list A) (s : ft A) :
  let s' := snd (_process_batch_with_retry proc_env dlq_ok rec_room batch 0 s) in
  Z.of_nat (attempts s') = Z.of_nat (attempts s) + 1 + (retry_count s' - retry_count s) /\
  0 <= retry_count s' - retry_count s <= Z.max 0 (max_retries s) /\
  0 <= error_count s' - error_count s <= 1.
Proof.
  unfold _process_batch_with_retry.
  pose proof (retry_loop_bound A proc_env dlq_ok rec_room (S (Z.to_nat (max_retries s - 0)))
                batch 0 s ltac:(lia) ltac:(lia)) as H.
  cbv zeta in H |- *. lia.
Qed.













End FaultTolerantConsumeProofs.


(* ===================================================================== *)
(** ** Proofs about measure_performance *)
(* ===================================================================== *)

Module BenchmarkProofs.
Import Benchmark.

(** The wrapper's own steps record no invocation of [func]. *)
Lemma steps_no_calls {Args W : Type} (step_raises : event Args -> W -> option nat)
    (evs : list (event Args)) (w : W) (log log' : list (event Args)) (o : option nat) :
  Forall (fun ev => calls [ev] = []) evs ->
  steps step_raises evs w log = (o, log') -> calls log' = calls log.
Proof.
  revert log. induction evs as [|ev evs IH]; intros log Hf H; simpl in H.
  - injection H as _ <-. done.
  - inversion Hf as [|? ? Hev Hevs]; subst.
    destruct (step_raises ev w).
    + injection H as _ <-. done.
    + rewrite (IH _ Hevs H). unfold calls in *. rewrite omap_app, Hev, app_nil_r. done.
Qed.

Lemma steps_all_ok {Args W : Type} (step_raises : event Args -> W -> option nat)
    (evs : list (event Args)) (w : W) (log : list (event Args)) :
  (forall ev w0, step_raises ev w0 = None) ->
  steps step_raises evs w log = (None, log ++ evs).
Proof.
  intros Hall. revert log. induction evs as [|ev evs IH]; intros log; simpl.
  - rewrite app_nil_r. done.
  - rewrite Hall, IH, <- app_assoc. done.
Qed.

(** C10 fails as stated: when printing the report raises (say a
    [UnicodeEncodeError] for the clock sign on an ASCII stdout, or an
    [AttributeError] from [func.__name__]), the wrapper raises although
    [func] returned; when [memory_info()] raises, [func] is not called. *)
Lemma c10_counterexample :
  ~ c10_as_stated (fun (ev : event nat) (_ : nat) =>
                     match ev with Report => Some 1%nat | _ => None end)
      (fun (n : nat) (w : nat) => (Returned (n * 2)%nat, S w)) /\
  ~ c10_as_stated (fun (ev : event nat) (_ : nat) =>
                     match ev with MemInfo => Some 0%nat | _ => None end)
      (fun (n : nat) (w : nat) => (Returned (n * 2)%nat, S w)).
Proof.
  split; intros H; specialize (H 21%nat 0%nat []); vm_compute in H;
    destruct H as [H1 H2]; discriminate.
Qed.

(** C10 (amended). In every world, [measure_performance(func)] calls
    [func] at most once, on the arguments it received, and when it
    returns a value, [func] returned that value, with [func]'s own
    effects on the world. When the wrapper's own steps all succeed
    ([memory_info()], the clock reads, [func.__name__] and the report's
    [print]), it calls [func] exactly once and returns (or raises)
    exactly what [func] returned (or raised); the clock, memory and print
    steps only add to the wrapper's own log. *)
Theorem c10_measure_performance_result {Args R W : Type}
    (step_raises : event Args -> W -> option nat)
    (func : Args -> W -> outcome R * W) (args : Args) (w : W) (log : list (event Args)) :
  let '(res, (w', log')) := wrapper step_raises func args (w, log) in
  (calls log' = calls log \/ calls log' = calls log ++ [args]) /\
  (forall r, res = Returned r -> func args w = (Returned r, w')) /\
  ((forall ev w0, step_raises ev w0 = None) ->
   (res, w') = func args w /\ calls log' = calls log ++ [args]).
Proof.
  assert (Hpre : Forall (fun ev => calls [ev] = []) [@MemInfo Args; Clock])
    by (repeat constructor).
  assert (Hpost : Forall (fun ev => calls [ev] = []) [@Clock Args; MemInfo; Report])
    by (repeat constructor).
  unfold wrapper.
  destruct (steps step_raises [MemInfo; Clock] w log) as [[e|] log1] eqn:E1;
    pose proof (steps_no_calls step_raises _ w log log1 _ Hpre E1) as Hc1.
  - split; [left; done|]. split; [intros r Hr; discriminate Hr|].
    intros Hall. rewrite steps_all_ok in E1 by done. discriminate E1.
  - assert (Hc2 : calls (log1 ++ [Call args]) = calls log ++ [args])
      by (unfold calls in *; rewrite omap_app, Hc1; done).
    destruct (func args w) as [[r|e] w'] eqn:Ef.
    + destruct (steps step_raises [Clock; MemInfo; Report] w' (log1 ++ [Call args]))
        as [[e|] log3] eqn:E3;
        pose proof (steps_no_calls step_raises _ w' _ log3 _ Hpost E3) as Hc3;
        rewrite Hc2 in Hc3.
      * split; [right; done|]. split; [intros r' Hr; discriminate Hr|].
        intros Hall. rewrite steps_all_ok in E3 by done. discriminate E3.
      * split; [right; done|]. split; [intros r' Hr; injection Hr as <-; done|].
        intros _. done.
    + split; [right; done|]. split; [intros r' Hr; discriminate Hr|]. intros _. done.
Qed.

Lemma c10_measure_performance_result_witness :
  let '(res, (w', log')) :=
    wrapper (fun (_ : event nat) (_ : nat) => None)
      (fun (n : nat) (w : nat) => (Returned (n * 2)%nat, S w)) 21%nat (0%nat, []) in
  (res, w') = (Returned 42%nat, 1%nat).
Proof.
  pose proof (c10_measure_performance_result (fun (_ : event nat) (_ : nat) => None)
                (fun (n : nat) (w : nat) => (Returned (n * 2)%nat, S w)) 21%nat 0%nat [])
    as H.
  destruct (wrapper (fun (_ : event nat) (_ : nat) => None)
              (fun (n : nat) (w : nat) => (Returned (n * 2)%nat, S w)) 21%nat (0%nat, []))
    as [res [w' log']].
  destruct H as (_ & _ & H3). destruct (H3 (fun _ _ => eq_refl)) as [H _].
  rewrite H. reflexivity.
Defined.

Example c10_example :
  wrapper (fun (_ : event nat) (_ : nat) => None)
    (fun (n : nat) (w : nat) => (Returned (n * 2)%nat, S w)) 21%nat (0%nat, [])
  = (Returned 42%nat, (1%nat, [MemInfo; Clock; Call 21%nat; Clock; MemInfo; Report])).
Proof. reflexivity. Qed.

End BenchmarkProofs.

(* ===================================================================== *)
(** ** Proofs about the Disruptor bus *)
(* ===================================================================== *)

Module DisruptorProofs.
Import Disruptor.

Section Lemmas.
Variable A E : Type.
Variable consume_raises : nat -> list (option A) -> option E.
Implicit Types (d : disruptor A E) (ws : list (worker A)).

(** *** The gating sequence *)

Lemma fold_min_le_base (b : Z) ws :
  fold_right Z.min b (map cursor ws) <= b.
Proof. induction ws as [|w ws IH]; simpl; lia. Qed.

Lemma fold_min_le_cursor (b : Z) ws :
  Forall (fun w => fold_right Z.min b (map cursor ws) <= cursor w) ws.
Proof.
  induction ws as [|w ws IH]; simpl; constructor; [lia|].
  eapply Forall_impl; [exact IH|]. simpl. lia.
Qed.

Lemma fold_min_glb (c b : Z) ws :
  Forall (fun w => c <= cursor w) ws -> c <= b ->
  c <= fold_right Z.min b (map cursor ws).
Proof.
  induction ws as [|w ws IH]; simpl; [lia|].
  intros Hf Hb. inversion Hf; subst. specialize (IH ltac:(done) Hb). lia.
Qed.

(** *** Slot arithmetic *)

Lemma mod_distinct (K a b : Z) :
  0 < K -> 0 <= a -> a < b -> b - a < K -> Z.to_nat (a mod K) <> Z.to_nat (b mod K).
Proof.
  intros HK Ha Hab Hba Heq.
  assert (Hma := Z.mod_pos_bound a K HK). assert (Hmb := Z.mod_pos_bound b K HK).
  apply Z2Nat.inj in Heq; [|lia|lia].
  rewrite (Z.div_mod a K), (Z.div_mod b K) in Hab, Hba by lia.
  rewrite Heq in Hab, Hba.
  assert (a / K < b / K) by nia. nia.
Qed.

Lemma length_write_all (K : Z) (r : list (option A)) (s : Z) (items : list A) :
  length (write_all K r s items) = length r.
Proof.
  revert r s. induction items as [|x xs IH]; intros r s; simpl; [done|].
  rewrite IH, length_insert. done.
Qed.

Lemma write_all_old (K : Z) (r : list (option A)) (s : Z) (items : list A) (j : nat) :
  (forall k, (k < length items)%nat -> j <> Z.to_nat ((s + Z.of_nat k) mod K)) ->
  write_all K r s items !! j = r !! j.
Proof.
  revert r s. induction items as [|x xs IH]; intros r s Hj; simpl; [done|].
  rewrite IH.
  - apply list_lookup_insert_ne. specialize (Hj 0%nat ltac:(simpl; lia)).
    rewrite Z.add_0_r in Hj. auto.
  - intros k Hk. specialize (Hj (S k) ltac:(simpl; lia)).
    replace (s + 1 + Z.of_nat k) with (s + Z.of_nat (S k)) by lia. done.
Qed.

Lemma write_all_new (K : Z) (r : list (option A)) (s : Z) (items : list A) (k : nat) (x : A) :
  0 < K -> 0 <= s -> length r = Z.to_nat K -> Z.of_nat (length items) <= K ->
  items !! k = Some x ->
  write_all K r s items !! Z.to_nat ((s + Z.of_nat k) mod K) = Some (Some x).
Proof.
  intros HK. revert r s k. induction items as [|y ys IH]; intros r s k Hs Hr Hlen Hk;
    [done|simpl in *].
  destruct k as [|k]; simpl in Hk.
  - injection Hk as <-. rewrite Z.add_0_r. rewrite write_all_old.
    + apply list_lookup_insert_eq. rewrite Hr.
      assert (Hm := Z.mod_pos_bound s K HK). lia.
    + intros k Hk. apply mod_distinct; lia.
  - replace (s + Z.of_nat (S k)) with ((s + 1) + Z.of_nat k) by lia.
    apply IH; [lia|rewrite length_insert; done|lia|done].
Qed.

(** *** Batches *)

Lemma read_batch_published d (s : Z) (n : nat) :
  0 <= s -> (Z.to_nat s + n <= length (published d))%nat ->
  (forall k x, (k < n)%nat -> published d !! (Z.to_nat s + k)%nat = Some x ->
               read d (s + Z.of_nat k) = Some x) ->
  read_batch d s n = map Some (take n (drop (Z.to_nat s) (published d))).
Proof.
  revert s. induction n as [|n IH]; intros s Hs Hlen Hr; simpl; [done|].
  destruct (lookup_lt_is_Some_2 (published d) (Z.to_nat s)) as [x Hx]; [lia|].
  rewrite (drop_S _ x) by done. simpl. f_equal.
  - specialize (Hr 0%nat x). rewrite Nat.add_0_r, Z.add_0_r in Hr. apply Hr; [lia|done].
  - replace (S (Z.to_nat s)) with (Z.to_nat (s + 1)) by lia.
    apply IH; [lia|lia|]. intros k y Hk Hy.
    replace (s + 1 + Z.of_nat k) with (s + Z.of_nat (S k)) by lia.
    apply Hr; [lia|]. rewrite <- Hy. f_equal. lia.
Qed.

Lemma length_read_batch d (s : Z) (n : nat) : length (read_batch d s n) = n.
Proof. revert s. induction n as [|n IH]; intros s; simpl; [done|]. rewrite IH. done. Qed.

(** *** The invariant is established and kept by every operation *)

Lemma inv_init (K : Z) (h : bool) : 0 < K -> inv consume_raises (init K h : disruptor A E).
Proof.
  intros HK. unfold inv, init; simpl.
  split; [done|]. split; [rewrite repeat_length; done|].
  split; [done|]. split; [constructor|]. split; [unfold gating; simpl; lia|].
  split; [intros s x _ Hx; rewrite lookup_nil in Hx; discriminate|].
  split; [done|]. split; [intros; constructor|]. split; [intros; constructor|].
  split; [destruct h; done|]. intros i w Hw. rewrite lookup_nil in Hw. discriminate.
Qed.

Lemma concat_nonempty_nil (bs : list (list (option A))) :
  concat bs = [] -> Forall (fun b => b <> []) bs -> bs = [].
Proof.
  destruct bs as [|b bs]; [done|]. simpl. intros Hc Hf. inversion Hf; subst.
  destruct b; [done|discriminate].
Qed.

Lemma failure_log_set_workers d ws :
  failure_log (set_workers d ws) = failure_log d.
Proof. done. Qed.

Lemma inv_register d :
  inv consume_raises d -> inv consume_raises (snd (register_consumer d)).
Proof.
  intros Hinv. unfold register_consumer. destruct (state d) eqn:Hst; simpl; try done.
  destruct Hinv as (HK & Hr & Hpc & Hw & Hg & Hs & Hnew & Hcl & Hncl & Hh & Hlog).
  destruct (Hnew Hst) as (Hpub & Hhc & Hel).
  assert (Hm1 : producer_cursor d = -1) by (rewrite Hpub in Hpc; simpl in Hpc; lia).
  unfold inv, set_workers; simpl. rewrite Hst.
  split; [done|]. split; [done|]. split; [done|].
  split.
  { apply Forall_app. split; [done|]. apply Forall_singleton.
    unfold worker_ok; simpl. repeat split; [lia|lia|constructor]. }
  split.
  { unfold gating; simpl.
    assert (-1 <= fold_right Z.min (producer_cursor d) (map cursor (workers d ++ [mkWorker (-1) [] 0])));
      [|lia].
    apply fold_min_glb; [|lia]. apply Forall_app; split; [|constructor; simpl; [lia|constructor]].
    eapply Forall_impl; [exact Hw|]. intros w (? & _); lia. }
  split; [intros s x _ Hx; rewrite Hpub, lookup_nil in Hx; discriminate|].
  split; [done|]. split; [discriminate|].
  split; [intros _; apply Forall_app; split; [apply Hncl; rewrite Hst; discriminate|];
          constructor; [done|constructor]|].
  split; [done|].
  intros i w Hi. unfold failure_log in *; simpl.
  destruct (decide (i < length (workers d))%nat) as [Hlt|Hge].
  - rewrite lookup_app_l in Hi by done. apply Hlog; done.
  - rewrite lookup_app_r in Hi by lia.
    destruct (i - length (workers d))%nat as [|k] eqn:Hk; [|simpl in Hi; discriminate].
    simpl in Hi. injection Hi as <-. simpl.
    destruct (has_handler d); [rewrite Hhc|rewrite Hel]; done.
Qed.

Lemma inv_begin_close d :
  inv consume_raises d -> inv consume_raises (snd (begin_close d)).
Proof.
  intros Hinv. unfold begin_close. destruct (state d) eqn:Hst; simpl; try done;
  destruct Hinv as (HK & Hr & Hpc & Hw & Hg & Hs & Hnew & Hcl & Hncl & Hh & Hlog);
  unfold inv, set_state; simpl;
  (repeat split; try done);
  try (let HH := fresh in intros HH; discriminate HH);
  intros _; apply Hncl; rewrite Hst; discriminate.
Qed.

Lemma gating_ge_m1 d :
  inv consume_raises d -> -1 <= gating d.
Proof.
  intros (HK & Hr & Hpc & Hw & _). unfold gating. apply fold_min_glb; [|lia].
  eapply Forall_impl; [exact Hw|]. intros w (? & _). lia.
Qed.

Lemma inv_produce d (items : list A) :
  inv consume_raises d -> inv consume_raises (snd (produce d items)).
Proof.
  intros Hinv. assert (Hgm1 := gating_ge_m1 d Hinv).
  unfold produce. destruct (state d) eqn:Hst; try (simpl; done).
  all: destruct (Z.ltb_spec (producer_cursor d + Z.of_nat (length items) - capacity d) (gating d))
         as [Hlt|Hge]; [|simpl; done].
  all: destruct Hinv as (HK & Hr & Hpc & Hw & Hg & Hs & Hnew & Hcl & Hncl & Hh & Hlog).
  all: assert (Hgpc : gating d <= producer_cursor d) by apply fold_min_le_base.
  all: set (hi := producer_cursor d + Z.of_nat (length items)) in *.
  all: assert (Hg' : gating d <= fold_right Z.min hi (map cursor (workers d)))
         by (apply fold_min_glb; [apply fold_min_le_cursor|lia]).
  all: unfold inv; simpl.
  all: split; [done|]; split; [rewrite length_write_all; done|].
  all: split; [rewrite length_app; lia|].
  all: split; [eapply Forall_impl; [exact Hw|]; intros w (Hc & Hd & Hne);
               unfold worker_ok; rewrite take_app_le by lia; repeat split; [lia|lia|done|done]|].
  all: split; [unfold gating in *; simpl; lia|].
  all: split; [|split; [intros HH; discriminate HH|split; [intros HH; discriminate HH|]]].
  2,4: split; [intros _; apply Hncl; rewrite Hst; discriminate|];
       split; [done|]; unfold failure_log in *; simpl; exact Hlog.
  all: intros s x Hsx Hx; unfold slot; simpl; unfold gating in Hsx; simpl in Hsx.
  all: destruct (decide (Z.to_nat s < length (published d))%nat) as [Hin|Hout].
  1,3: rewrite lookup_app_l in Hx by done;
       rewrite write_all_old; [apply Hs; [lia|done]|];
       intros k Hk; apply mod_distinct; lia.
  all: rewrite lookup_app_r in Hx by lia;
       replace s with (producer_cursor d + 1 + Z.of_nat (Z.to_nat s - length (published d))) by lia;
       apply write_all_new; [lia|lia|done|lia|done].
Qed.

(** The effect of one worker iteration on a consumer that is behind: its
    batch is read, delivered, its cursor set to the producer cursor, and a
    raise of [consume] is appended to the handler's log or the default
    log. *)
Lemma worker_step_behind d i w :
  workers d !! i = Some w -> cursor w < producer_cursor d ->
  let batch := read_batch d (cursor w + 1) (Z.to_nat (producer_cursor d - cursor w)) in
  let w' := mkWorker (producer_cursor d) (delivered w ++ [batch]) (close_calls w) in
  let entry := map (fun be => (i, be.1, be.2)) (raised consume_raises i [batch]) in
  worker_step consume_raises d i =
    (Done, mkDisruptor (capacity d) (ring d) (producer_cursor d) (<[i := w']> (workers d))
             (state d) (has_handler d)
             (handler_calls d ++ (if has_handler d then entry else []))
             (error_log d ++ (if has_handler d then [] else entry)) (published d)).
Proof.
  intros Hwi Hlt batch w' entry. unfold worker_step. rewrite Hwi.
  destruct (Z.leb_spec (producer_cursor d) (cursor w)); [lia|].
  fold batch. fold w'. unfold entry, raised, set_workers. simpl.
  destruct (consume_raises i batch) as [e|]; destruct (has_handler d); simpl;
    rewrite ?app_nil_r; done.
Qed.

Lemma log_update (log : list (nat * list (option A) * E)) ws i w (c' : Z) (cc : nat) batch :
  ws !! i = Some w ->
  (forall j w, ws !! j = Some w ->
     filter (fun t : nat * list (option A) * E => t.1.1 = j) log =
     map (fun be => (j, be.1, be.2)) (raised consume_raises j (delivered w))) ->
  forall j w'', <[i := mkWorker c' (delivered w ++ [batch]) cc]> ws !! j = Some w'' ->
  filter (fun t : nat * list (option A) * E => t.1.1 = j)
    (log ++ map (fun be => (i, be.1, be.2)) (raised consume_raises i [batch])) =
  map (fun be => (j, be.1, be.2)) (raised consume_raises j (delivered w'')).
Proof.
  intros Hi Hlog j w'' Hj. rewrite filter_app.
  destruct (decide (j = i)) as [->|Hne].
  - rewrite list_lookup_insert_eq in Hj by (eapply lookup_lt_Some; done).
    injection Hj as <-. simpl. rewrite (Hlog i w Hi).
    unfold raised. rewrite omap_app, map_app. f_equal.
    simpl. destruct (consume_raises i batch); simpl; [|done].
    rewrite filter_cons_True by done. done.
  - rewrite list_lookup_insert_ne in Hj by done. rewrite (Hlog j w'' Hj).
    unfold raised. simpl. destruct (consume_raises i batch); simpl; [|rewrite app_nil_r; done].
    rewrite filter_cons_False by (simpl; congruence). rewrite filter_nil, app_nil_r. done.
Qed.

Lemma inv_worker_step d i :
  inv consume_raises d -> inv consume_raises (snd (worker_step consume_raises d i)).
Proof.
  intros Hinv. assert (Hgm1 := gating_ge_m1 d Hinv).
  destruct (workers d !! i) as [w|] eqn:Hwi; [|unfold worker_step; rewrite Hwi; done].
  destruct (Z.leb_spec (producer_cursor d) (cursor w)) as [Hle|Hlt].
  { unfold worker_step. rewrite Hwi. destruct (Z.leb_spec (producer_cursor d) (cursor w)); [done|lia]. }
  rewrite (worker_step_behind d i w Hwi Hlt). simpl.
  destruct Hinv as (HK & Hr & Hpc & Hw & Hg & Hs & Hnew & Hcl & Hncl & Hh & Hlog).
  assert (Hgpc : gating d <= producer_cursor d) by apply fold_min_le_base.
  assert (Hgw : gating d <= cursor w)
    by (exact (Forall_lookup_1 _ _ _ _ (fold_min_le_cursor (producer_cursor d) (workers d)) Hwi)).
  destruct (Forall_lookup_1 _ _ _ _ Hw Hwi) as (Hc & Hdl & Hne).
  set (n := Z.to_nat (producer_cursor d - cursor w)).
  assert (Hbatch : read_batch d (cursor w + 1) n =
                   map Some (take n (drop (Z.to_nat (cursor w + 1)) (published d)))).
  { apply read_batch_published; [lia|lia|]. intros k x Hk Hx. unfold read.
    rewrite (Hs (cursor w + 1 + Z.of_nat k) x); [done|lia|]. rewrite <- Hx. f_equal. lia. }
  set (batch := read_batch d (cursor w + 1) n) in *.
  set (ws' := <[i := mkWorker (producer_cursor d) (delivered w ++ [batch]) (close_calls w)]> (workers d)).
  assert (Hg' : gating d <= fold_right Z.min (producer_cursor d) (map cursor ws')).
  { apply fold_min_glb; [|lia]. apply Forall_insert; [apply fold_min_le_cursor|simpl; lia]. }
  unfold inv; simpl. fold ws'.
  split; [done|]. split; [done|]. split; [done|].
  split.
  { apply Forall_insert; [done|]. unfold worker_ok; simpl.
    split; [lia|]. split.
    - rewrite concat_app, Hdl. simpl. rewrite app_nil_r, Hbatch, <- map_app, take_take_drop.
      do 2 f_equal. lia.
    - apply Forall_app; split; [done|]. apply Forall_singleton.
      intros Hb. apply (f_equal length) in Hb. unfold batch in Hb.
      rewrite length_read_batch in Hb. simpl in Hb. lia. }
  split; [unfold gating in *; simpl in *; lia|].
  split; [intros s x Hsx Hx; apply Hs; [unfold gating in *; simpl in *; lia|done]|].
  split.
  { intros Hn. destruct (Hnew Hn) as (Hpub & _). rewrite Hpub in Hpc. simpl in Hpc. lia. }
  split.
  { intros Hcd. specialize (Hcl Hcd). destruct (Forall_lookup_1 _ _ _ _ Hcl Hwi). lia. }
  split.
  { intros Hcd. apply Forall_insert; [apply Hncl; done|]. simpl.
    exact (Forall_lookup_1 _ _ _ _ (Hncl Hcd) Hwi). }
  split; [destruct (has_handler d); rewrite app_nil_r; done|].
  intros j w'' Hj. unfold failure_log in *. simpl.
  destruct (has_handler d); rewrite ?app_nil_r.
  all: exact (log_update _ _ i w _ _ batch Hwi Hlog j w'' Hj).
Qed.

(** *** Frame of one worker iteration and of the drain loop *)

Lemma lookup_map_worker (f : worker A -> worker A) (ws : list (worker A)) j :
  map f ws !! j = option_map f (ws !! j).
Proof. revert j; induction ws as [|w ws IH]; intros [|j]; simpl; auto. Qed.

Lemma Forall_map_intro {B C : Type} (f : B -> C) (P : C -> Prop) (l : list B) :
  Forall (fun x => P (f x)) l -> Forall P (map f l).
Proof. induction 1; simpl; constructor; auto. Qed.

Lemma forallb_intro {B : Type} (g : B -> bool) (l : list B) :
  Forall (fun x => g x = true) l -> forallb g l = true.
Proof. induction 1; simpl; [done|]. apply andb_true_iff; auto. Qed.

Lemma forallb_elim {B : Type} (g : B -> bool) (l : list B) :
  forallb g l = true -> Forall (fun x => g x = true) l.
Proof.
  induction l as [|x l IH]; simpl; [constructor|].
  intros H. apply andb_true_iff in H as [H1 H2]. constructor; auto.
Qed.

Lemma cursors_close_all (ws : list (worker A)) :
  map cursor (map (fun w => mkWorker (cursor w) (delivered w) (S (close_calls w))) ws) =
  map cursor ws.
Proof. induction ws as [|w ws IH]; simpl; [done|]. rewrite IH. done. Qed.

Lemma worker_step_frame d i :
  let d' := snd (worker_step consume_raises d i) in
  capacity d' = capacity d /\ producer_cursor d' = producer_cursor d /\
  state d' = state d /\ published d' = published d /\ has_handler d' = has_handler d /\
  length (workers d') = length (workers d) /\
  (forall j, j <> i -> workers d' !! j = workers d !! j) /\
  (forall w, workers d !! i = Some w ->
     exists w', workers d' !! i = Some w' /\ cursor w' = Z.max (cursor w) (producer_cursor d)).
Proof.
  cbv zeta. destruct (workers d !! i) as [w|] eqn:Hwi.
  2: { unfold worker_step; rewrite Hwi; simpl. repeat split; try done. }
  destruct (Z.leb_spec (producer_cursor d) (cursor w)) as [Hle|Hlt].
  - unfold worker_step; rewrite Hwi.
    destruct (Z.leb_spec (producer_cursor d) (cursor w)); [|lia]. simpl.
    repeat split; try done. intros w0 Hw0. injection Hw0 as <-.
    exists w. split; [done|lia].
  - rewrite (worker_step_behind d i w Hwi Hlt). simpl.
    repeat split; try done.
    + rewrite length_insert; done.
    + intros j Hj. apply list_lookup_insert_ne. congruence.
    + intros w0 Hw0. injection Hw0 as <-. eexists; split.
      * apply list_lookup_insert_eq. eapply lookup_lt_Some; done.
      * simpl. lia.
Qed.

Lemma drain_from_frame n : forall i d,
  let d' := drain_from consume_raises i n d in
  capacity d' = capacity d /\ producer_cursor d' = producer_cursor d /\
  state d' = state d /\ published d' = published d /\ has_handler d' = has_handler d /\
  length (workers d') = length (workers d) /\
  (forall j, (j < i \/ i + n <= j)%nat -> workers d' !! j = workers d !! j) /\
  (forall j w, (i <= j < i + n)%nat -> workers d !! j = Some w ->
     exists w', workers d' !! j = Some w' /\ cursor w' = Z.max (cursor w) (producer_cursor d)).
Proof.
  cbv zeta. induction n as [|n IH]; intros i d; cbn [drain_from].
  - repeat split; try done. intros j w Hj; lia.
  - destruct (worker_step_frame d i) as (Hc & Hpc & Hst & Hpub & Hh & Hlen & Hoth & Hi).
    destruct (IH (S i) (snd (worker_step consume_raises d i)))
      as (Hc' & Hpc' & Hst' & Hpub' & Hh' & Hlen' & Hoth' & Hi').
    split; [congruence|]. split; [congruence|]. split; [congruence|].
    split; [congruence|]. split; [congruence|]. split; [congruence|].
    split.
    + intros j Hj. rewrite Hoth' by lia. apply Hoth. lia.
    + intros j w Hj Hw. destruct (decide (j = i)) as [->|Hne].
      * destruct (Hi w Hw) as (w' & Hw' & Hcw'). exists w'. split; [|lia].
        rewrite Hoth' by lia. done.
      * rewrite <- (Hoth j Hne) in Hw. destruct (Hi' j w) as (w' & Hw' & Hcw'); [lia|done|].
        exists w'. split; [done|]. rewrite Hcw', Hpc. done.
Qed.

Lemma inv_drain_from n : forall i d,
  inv consume_raises d -> inv consume_raises (drain_from consume_raises i n d).
Proof.
  induction n as [|n IH]; intros i d Hd; cbn [drain_from]; [done|].
  apply IH, inv_worker_step, Hd.
Qed.

(** Letting every consumer run one iteration catches them all up with the
    producer cursor. *)
Lemma drain_catches_up d :
  inv consume_raises d ->
  let d' := drain_from consume_raises 0 (length (workers d)) d in
  Forall (fun w => cursor w = producer_cursor d') (workers d').
Proof.
  intros Hd. cbv zeta.
  destruct (drain_from_frame (length (workers d)) 0 d) as (_ & Hpc & _ & _ & _ & Hlen & _ & Hin).
  apply Forall_lookup_2. intros j w' Hj.
  assert (Hjl : (j < length (workers d))%nat) by (rewrite <- Hlen; eapply lookup_lt_Some; done).
  destruct (lookup_lt_is_Some_2 (workers d) j Hjl) as [w Hw].
  destruct (Hin j w) as (w'' & Hw'' & Hc); [lia|done|].
  rewrite Hj in Hw''. injection Hw'' as Heq. subst w''.
  destruct Hd as (_ & _ & _ & Hwk & _). destruct (Forall_lookup_1 _ _ _ _ Hwk Hw) as (Hb & _).
  lia.
Qed.

Lemma worker_step_caught_up d i :
  (forall w, workers d !! i = Some w -> producer_cursor d <= cursor w) ->
  snd (worker_step consume_raises d i) = d.
Proof.
  intros H. unfold worker_step. destruct (workers d !! i) as [w|] eqn:Hwi; [|done].
  destruct (Z.leb_spec (producer_cursor d) (cursor w)); [done|].
  specialize (H w eq_refl). lia.
Qed.

Lemma drain_from_caught_up n : forall i d,
  Forall (fun w => producer_cursor d <= cursor w) (workers d) ->
  drain_from consume_raises i n d = d.
Proof.
  induction n as [|n IH]; intros i d Hf; cbn [drain_from]; [done|].
  rewrite worker_step_caught_up; [apply IH, Hf|].
  intros w Hw. exact (Forall_lookup_1 _ _ _ _ Hf Hw).
Qed.

Lemma inv_finish_close d :
  inv consume_raises d -> inv consume_raises (snd (finish_close d)).
Proof.
  intros Hinv. unfold finish_close. destruct (state d) eqn:Hst; try (simpl; done).
  destruct (forallb (fun w => cursor w =? producer_cursor d) (workers d)) eqn:Hall; [|simpl; done].
  apply forallb_elim in Hall.
  destruct Hinv as (HK & Hr & Hpc & Hw & Hg & Hs & Hnew & Hcl & Hncl & Hh & Hlog).
  assert (Hn := Hncl ltac:(rewrite Hst; discriminate)).
  unfold inv, set_state, set_workers, gating in *; simpl.
  rewrite cursors_close_all.
  split; [done|]. split; [done|]. split; [done|].
  split; [apply Forall_map_intro; eapply Forall_impl; [exact Hw|]; intros w Hok; exact Hok|].
  split; [done|]. split; [done|]. split; [intros HH; discriminate HH|].
  split.
  { intros _. apply Forall_map_intro. apply Forall_lookup_2. intros j w Hj. simpl. split.
    - apply Z.eqb_eq. exact (Forall_lookup_1 _ _ _ _ Hall Hj).
    - rewrite (Forall_lookup_1 _ _ _ _ Hn Hj). done. }
  split; [intros HH; done|].
  split; [done|].
  intros i w Hi. unfold failure_log in *; simpl in *.
  rewrite lookup_map_worker in Hi. destruct (workers d !! i) as [w0|] eqn:Hw0; [|discriminate].
  simpl in Hi. injection Hi as <-. simpl. apply Hlog. done.
Qed.

Lemma inv_close d :
  inv consume_raises d -> inv consume_raises (snd (close consume_raises d)).
Proof. intros Hd. unfold close. apply inv_finish_close, inv_drain_from, inv_begin_close, Hd. Qed.

Lemma inv_step d a :
  inv consume_raises d -> inv consume_raises (snd (step consume_raises d a)).
Proof.
  intros Hd. destruct a; cbn [step];
    [apply inv_register|apply inv_produce|apply inv_worker_step
    |apply inv_begin_close|apply inv_finish_close|apply inv_close]; exact Hd.
Qed.

Lemma inv_run acts : forall d,
  inv consume_raises d -> inv consume_raises (run consume_raises d acts).
Proof.
  induction acts as [|a acts IH]; intros d Hd; [done|].
  unfold run; cbn [fold_left]. apply IH, inv_step, Hd.
Qed.

Lemma inv_reachable (K : Z) (h : bool) acts :
  0 < K -> inv consume_raises (run consume_raises (init K h) acts).
Proof. intros HK. apply inv_run, inv_init, HK. Qed.

(** *** [close()] ends in CLOSED, and is a no-op there *)

Lemma close_closed d :
  inv consume_raises d ->
  fst (close consume_raises d) = Done /\ state (snd (close consume_raises d)) = CLOSED.
Proof.
  intros Hd. unfold close.
  set (d1 := snd (begin_close d)).
  assert (Hd1 : inv consume_raises d1) by (apply inv_begin_close, Hd).
  assert (Hs1 : state d1 = DRAINING \/ state d1 = CLOSED).
  { unfold d1, begin_close. destruct (state d) eqn:Hst; simpl; rewrite ?Hst; auto. }
  assert (Hc := drain_catches_up d1 Hd1). cbv zeta in Hc.
  destruct (drain_from_frame (length (workers d1)) 0 d1) as (_ & _ & Hs2 & _).
  set (d2 := drain_from consume_raises 0 (length (workers d1)) d1) in *.
  unfold finish_close. rewrite Hs2.
  destruct Hs1 as [H1 | H1]; rewrite H1; [|simpl; split; [done|congruence]].
  rewrite forallb_intro; [simpl; split; done|].
  eapply Forall_impl; [exact Hc|]. intros w Hw. apply Z.eqb_eq. exact Hw.
Qed.

Lemma close_when_closed d :
  inv consume_raises d -> state d = CLOSED -> close consume_raises d = (Done, d).
Proof.
  intros Hd Hst. unfold close, begin_close. rewrite Hst. cbn [snd].
  rewrite drain_from_caught_up.
  - unfold finish_close. rewrite Hst. done.
  - destruct Hd as (_ & _ & _ & _ & _ & _ & _ & Hcl & _).
    eapply Forall_impl; [exact (Hcl Hst)|]. intros w [-> _]. lia.
Qed.

(** *** Logged failures name registered consumers *)

Lemma log_indexed_weaken (l : list (nat * list (option A) * E)) (n m : nat) :
  Forall (fun t : nat * list (option A) * E => (t.1.1 < n)%nat) l -> (n <= m)%nat ->
  Forall (fun t : nat * list (option A) * E => (t.1.1 < m)%nat) l.
Proof. intros H Hnm. eapply Forall_impl; [exact H|]. intros t Ht. cbv beta in *. lia. Qed.

Lemma log_indexed_init (K : Z) (h : bool) : log_indexed (init K h : disruptor A E).
Proof. unfold log_indexed. simpl. constructor. Qed.

Lemma log_indexed_register d : log_indexed d -> log_indexed (snd (register_consumer d)).
Proof.
  unfold log_indexed, register_consumer. intros Hl. destruct (state d); simpl; try done.
  eapply log_indexed_weaken; [exact Hl|]. rewrite length_app. lia.
Qed.

Lemma log_indexed_produce d items : log_indexed d -> log_indexed (snd (produce d items)).
Proof.
  unfold log_indexed, produce. intros Hl.
  destruct (state d); try destruct (_ <? _); simpl; done.
Qed.

Lemma log_indexed_worker_step d i :
  log_indexed d -> log_indexed (snd (worker_step consume_raises d i)).
Proof.
  unfold log_indexed, worker_step. intros Hl.
  destruct (workers d !! i) as [w|] eqn:Hwi; [|done].
  destruct (producer_cursor d <=? cursor w); [done|].
  assert (Hi : (i < length (workers d))%nat) by (eapply lookup_lt_Some; done).
  destruct (consume_raises i _) as [e|]; [destruct (has_handler d)|]; simpl;
    (apply (log_indexed_weaken _ (length (workers d))); [|rewrite length_insert; lia]).
  all: rewrite !Forall_app in *; rewrite ?Forall_app.
  all: repeat split; try tauto; apply Forall_singleton; simpl; done.
Qed.

Lemma log_indexed_begin_close d : log_indexed d -> log_indexed (snd (begin_close d)).
Proof. unfold log_indexed, begin_close. destruct (state d); simpl; done. Qed.

Lemma log_indexed_finish_close d : log_indexed d -> log_indexed (snd (finish_close d)).
Proof.
  unfold log_indexed, finish_close. intros Hl.
  destruct (state d); try destruct (forallb _ _); simpl; try done.
  eapply log_indexed_weaken; [exact Hl|]. rewrite length_map. lia.
Qed.

Lemma log_indexed_drain_from n : forall i d,
  log_indexed d -> log_indexed (drain_from consume_raises i n d).
Proof.
  induction n as [|n IH]; intros i d Hd; cbn [drain_from]; [done|].
  apply IH, log_indexed_worker_step, Hd.
Qed.

Lemma log_indexed_run acts : forall d,
  log_indexed d -> log_indexed (run consume_raises d acts).
Proof.
  induction acts as [|a acts IH]; intros d Hd; [done|].
  unfold run; cbn [fold_left]. apply IH.
  destruct a; cbn [step];
    [apply log_indexed_register|apply log_indexed_produce|apply log_indexed_worker_step
    |apply log_indexed_begin_close|apply log_indexed_finish_close|]; try exact Hd.
  unfold close. apply log_indexed_finish_close, log_indexed_drain_from, log_indexed_begin_close, Hd.
Qed.

(** *** What no operation changes: the handler configuration, and the
    published sequence apart from [produce]; and the lifecycle never goes
    back to NEW *)

Lemma has_handler_step d a :
  has_handler (snd (step consume_raises d a)) = has_handler d.
Proof.
  assert (Hb : forall d, has_handler (snd (begin_close d)) = has_handler d)
    by (intros d'; unfold begin_close; destruct (state d'); done).
  assert (Hf : forall d, has_handler (snd (finish_close d)) = has_handler d)
    by (intros d'; unfold finish_close; destruct (state d'); try destruct (forallb _ _); done).
  destruct a; cbn [step].
  - unfold register_consumer. destruct (state d); done.
  - unfold produce. destruct (state d); try destruct (_ <? _); done.
  - destruct (worker_step_frame d i) as (_ & _ & _ & _ & Hh & _). exact Hh.
  - apply Hb.
  - apply Hf.
  - unfold close. rewrite Hf.
    destruct (drain_from_frame (length (workers (snd (begin_close d)))) 0 (snd (begin_close d)))
      as (_ & _ & _ & _ & Hh & _).
    rewrite Hh. apply Hb.
Qed.

Lemma has_handler_run acts : forall d,
  has_handler (run consume_raises d acts) = has_handler d.
Proof.
  induction acts as [|a acts IH]; intros d; [done|].
  unfold run; cbn [fold_left]. etransitivity; [apply IH|apply has_handler_step].
Qed.

Lemma close_published d :
  published (snd (close consume_raises d)) = published d.
Proof.
  unfold close.
  set (d1 := snd (begin_close d)).
  assert (H1 : published d1 = published d)
    by (unfold d1, begin_close; destruct (state d); done).
  destruct (drain_from_frame (length (workers d1)) 0 d1) as (_ & _ & _ & Hp & _).
  set (d2 := drain_from consume_raises 0 (length (workers d1)) d1) in *.
  unfold finish_close. destruct (state d2); try destruct (forallb _ _); simpl; congruence.
Qed.

Lemma not_new_step d a :
  state d <> NEW -> state (snd (step consume_raises d a)) <> NEW.
Proof.
  assert (Hb : forall d, state (snd (begin_close d)) <> NEW)
    by (intros d'; unfold begin_close; destruct (state d') eqn:Est; simpl; congruence).
  assert (Hf : forall d, state d <> NEW -> state (snd (finish_close d)) <> NEW)
    by (intros d' H; unfold finish_close; destruct (state d') eqn:Est;
        try destruct (forallb _ _); simpl; congruence).
  intros Hn. destruct a; cbn [step].
  - unfold register_consumer. destruct (state d) eqn:Est; simpl; congruence.
  - unfold produce. destruct (state d) eqn:Est; simpl; try destruct (_ <? _); simpl; congruence.
  - destruct (worker_step_frame d i) as (_ & _ & Hs & _). congruence.
  - apply Hb.
  - apply Hf, Hn.
  - unfold close. apply Hf.
    destruct (drain_from_frame (length (workers (snd (begin_close d)))) 0 (snd (begin_close d)))
      as (_ & _ & Hs & _).
    rewrite Hs. apply Hb.
Qed.

Lemma not_new_run acts : forall d,
  state d <> NEW -> state (run consume_raises d acts) <> NEW.
Proof.
  induction acts as [|a acts IH]; intros d Hd; [done|].
  unfold run; cbn [fold_left]. apply IH, not_new_step, Hd.
Qed.

(** *** The failures of one consumer, read off the log *)

Lemma filter_all_idx (l : list (nat * list (option A) * E)) :
  Forall (fun t : nat * list (option A) * E => (t.1.1 < 1)%nat) l ->
  filter (fun t : nat * list (option A) * E => t.1.1 = 0%nat) l = l.
Proof.
  induction 1 as [|t l Ht Hl IH]; [done|].
  rewrite filter_cons_True by lia. rewrite IH. done.
Qed.

Lemma capacity_step d a :
  capacity (snd (step consume_raises d a)) = capacity d.
Proof.
  assert (Hb : forall d, capacity (snd (begin_close d)) = capacity d)
    by (intros d'; unfold begin_close; destruct (state d'); done).
  assert (Hf : forall d, capacity (snd (finish_close d)) = capacity d)
    by (intros d'; unfold finish_close; destruct (state d'); try destruct (forallb _ _); done).
  destruct a; cbn [step].
  - unfold register_consumer. destruct (state d); done.
  - unfold produce. destruct (state d); simpl; try destruct (_ <? _); done.
  - destruct (worker_step_frame d i) as (Hc & _). exact Hc.
  - apply Hb.
  - apply Hf.
  - unfold close. rewrite Hf.
    destruct (drain_from_frame (length (workers (snd (begin_close d)))) 0 (snd (begin_close d)))
      as (Hc & _).
    rewrite Hc. apply Hb.
Qed.

Lemma capacity_run acts : forall d,
  capacity (run consume_raises d acts) = capacity d.
Proof.
  induction acts as [|a acts IH]; intros d; [done|].
  unfold run; cbn [fold_left]. etransitivity; [apply IH|apply capacity_step].
Qed.

Lemma close_length d :
  length (workers (snd (close consume_raises d))) = length (workers d).
Proof.
  unfold close.
  set (d1 := snd (begin_close d)).
  assert (H1 : length (workers d1) = length (workers d))
    by (unfold d1, begin_close; destruct (state d); done).
  destruct (drain_from_frame (length (workers d1)) 0 d1) as (_ & _ & _ & _ & _ & Hl & _).
  set (d2 := drain_from consume_raises 0 (length (workers d1)) d1) in *.
  unfold finish_close. destruct (state d2); try destruct (forallb _ _); simpl;
    rewrite ?length_map; congruence.
Qed.

(** The batch a consumer that is behind is handed: the published items
    just after its cursor, up to the producer cursor. *)
Lemma batch_published d i w :
  inv consume_raises d -> workers d !! i = Some w -> cursor w < producer_cursor d ->
  read_batch d (cursor w + 1) (Z.to_nat (producer_cursor d - cursor w)) =
  map Some (take (Z.to_nat (producer_cursor d - cursor w))
                 (drop (Z.to_nat (cursor w + 1)) (published d))).
Proof.
  intros Hinv Hwi Hlt.
  destruct Hinv as (HK & Hr & Hpc & Hw & Hg & Hs & _).
  assert (Hgw : gating d <= cursor w)
    by (exact (Forall_lookup_1 _ _ _ _ (fold_min_le_cursor (producer_cursor d) (workers d)) Hwi)).
  destruct (Forall_lookup_1 _ _ _ _ Hw Hwi) as (Hc & _).
  apply read_batch_published; [lia|lia|]. intros k x Hk Hx. unfold read.
  rewrite (Hs (cursor w + 1 + Z.of_nat k) x); [done|lia|]. rewrite <- Hx. f_equal. lia.
Qed.

(** In CLOSED every consumer has been handed the whole published
    sequence. *)
Lemma closed_complete d :
  inv consume_raises d -> state d = CLOSED ->
  forall i w, workers d !! i = Some w -> concat (delivered w) = map Some (published d).
Proof.
  intros (_ & _ & Hpc & Hw & _ & _ & _ & Hcl & _) Hst i w Hi.
  destruct (Forall_lookup_1 _ _ _ _ Hw Hi) as (_ & Hdl & _).
  destruct (Forall_lookup_1 _ _ _ _ (Hcl Hst) Hi) as (Hc & _).
  rewrite Hdl, take_ge; [done|]. lia.
Qed.

End Lemmas.
End DisruptorProofs.

(* ===================================================================== *)
(** ** Proofs about scenario S5: counting raising batches *)
(* ===================================================================== *)

Module ScenarioS5Proofs.
Import Disruptor ScenarioS5.

Lemma raised_length (p : Z -> bool) (i : nat) (bs : list (list (option Z))) :
  length (raised (raises_on p) i bs) = length (filter (fun b => flagged p b = true) bs).
Proof.
  induction bs as [|b bs IH]; [done|].
  unfold raised, raises_on in *. simpl.
  destruct (flagged p b) eqn:Hf.
  - rewrite filter_cons, decide_True by done. simpl. f_equal. exact IH.
  - rewrite filter_cons, decide_False by congruence. exact IH.
Qed.

Lemma flagged_count (p : Z -> bool) (b : list (option Z)) :
  flagged p b = true -> (1 <= length (filter (fun o => flagged_item p o = true) b))%nat.
Proof.
  unfold flagged. induction b as [|o b IH]; cbn [existsb]; [discriminate|].
  intros H. apply orb_true_iff in H.
  rewrite filter_cons. destruct (decide (flagged_item p o = true)) as [Ho|Ho]; cbn [length]; [lia|].
  destruct H as [H|H]; [congruence|]. apply IH, H.
Qed.

(** A raising batch holds at least one flagged item. *)
Lemma batches_count_le (p : Z -> bool) (bs : list (list (option Z))) :
  (length (filter (fun b => flagged p b = true) bs) <=
   length (filter (fun o => flagged_item p o = true) (concat bs)))%nat.
Proof.
  induction bs as [|b bs IH]; [simpl; lia|].
  change (concat (b :: bs)) with (b ++ concat bs).
  rewrite filter_cons, filter_app, length_app.
  destruct (decide (flagged p b = true)) as [Hb|Hb]; cbn [length].
  - pose proof (flagged_count p b Hb). lia.
  - lia.
Qed.

(** With one-item batches, raising batches and flagged items match. *)
Lemma batches_count_singleton (p : Z -> bool) (bs : list (list (option Z))) :
  Forall (fun b => length b = 1%nat) bs ->
  length (filter (fun b => flagged p b = true) bs) =
  length (filter (fun o => flagged_item p o = true) (concat bs)).
Proof.
  induction 1 as [|b bs Hb Hbs IH]; [done|].
  destruct b as [|o [|o' b]]; try discriminate.
  change (concat ([o] :: bs)) with (o :: concat bs).
  rewrite !filter_cons. unfold flagged in *. cbn [existsb]. rewrite orb_false_r.
  destruct (decide (flagged_item p o = true)); cbn [length]; lia.
Qed.

Lemma filter_map_Some (p : Z -> bool) (l : list Z) :
  length (filter (fun o => flagged_item p o = true) (map Some l)) =
  length (filter (fun x => p x = true) l).
Proof.
  induction l as [|x l IH]; [done|]. cbn [map]. rewrite !filter_cons. cbn [flagged_item].
  destruct (decide (p x = true)); cbn [length]; lia.
Qed.

End ScenarioS5Proofs.

(* ===================================================================== *)
(** ** The dispatcher's claims *)
(* ===================================================================== *)

Module DisruptorClaims.
Import Disruptor DisruptorProofs ScenarioS5 ScenarioS5Proofs.

(** C1 (broadcast completeness). In every state reached from a fresh
    dispatcher of capacity [K > 0] by any interleaving of registrations,
    publications, worker iterations and closes, the batches handed to each
    registered consumer are non-empty and concatenate to the published
    items up to its cursor, in publication order; in CLOSED, and after
    [close()] from any such state, they concatenate to the whole published
    sequence, for every consumer. *)
Theorem c1_broadcast_completeness {A E : Type}
    (consume_raises : nat -> list (option A) -> option E)
    (K : Z) (h : bool) (acts : list (action A)) :
  0 < K ->
  let d := run consume_raises (init K h) acts in
  let d' := snd (close consume_raises d) in
  (forall i w, workers d !! i = Some w ->
     concat (delivered w) = map Some (take (Z.to_nat (cursor w + 1)) (published d)) /\
     Forall (fun b => b <> []) (delivered w)) /\
  (state d = CLOSED -> forall i w, workers d !! i = Some w ->
     concat (delivered w) = map Some (published d)) /\
  state d' = CLOSED /\ published d' = published d /\
  length (workers d') = length (workers d) /\
  (forall i w, workers d' !! i = Some w -> concat (delivered w) = map Some (published d')).
Proof.
  intros HK d d'.
  assert (Hinv : inv consume_raises d) by exact (inv_reachable _ _ consume_raises K h acts HK).
  assert (Hinv' : inv consume_raises d') by (apply inv_close, Hinv).
  destruct (close_closed _ _ consume_raises d Hinv) as (_ & Hst').
  split.
  { intros i w Hi. destruct Hinv as (_ & _ & _ & Hw & _).
    destruct (Forall_lookup_1 _ _ _ _ Hw Hi) as (_ & Hdl & Hne). split; [exact Hdl|exact Hne]. }
  split; [exact (closed_complete _ _ consume_raises d Hinv)|].
  split; [exact Hst'|]. split; [exact (close_published _ _ consume_raises d)|].
  split; [exact (close_length _ _ consume_raises d)|].
  exact (closed_complete _ _ consume_raises d' Hinv' Hst').
Qed.

Lemma c1_broadcast_completeness_witness :
  0 < 4 /\
  forall i w,
    workers (snd (close (raises_on mult7)
      (run (raises_on mult7) (init 4 true)
         [ARegister; ARegister; AProduce [1; 2]; AWorker 0; AProduce [3]]))) !! i = Some w ->
    concat (delivered w) = [Some 1; Some 2; Some 3].
Proof.
  split; [lia|]. intros i w Hi.
  destruct (c1_broadcast_completeness (raises_on mult7) 4 true
              [ARegister; ARegister; AProduce [1; 2]; AWorker 0; AProduce [3]] ltac:(lia))
    as (_ & _ & _ & _ & _ & Hall).
  rewrite (Hall i w Hi). vm_compute. reflexivity.
Defined.

(** C2 (backpressure). In every state reached from a fresh dispatcher of
    capacity [K > 0] by any interleaving of operations, the producer
    cursor is at most [K] ahead of the gating sequence (the minimum
    consumer cursor) and of every consumer's cursor, and every sequence
    not yet read by all consumers can still be read from its slot: no
    unread slot has been overwritten. *)
Theorem c2_backpressure {A E : Type}
    (consume_raises : nat -> list (option A) -> option E)
    (K : Z) (h : bool) (acts : list (action A)) :
  0 < K ->
  let d := run consume_raises (init K h) acts in
  capacity d = K /\
  producer_cursor d - gating d <= K /\
  (forall i w, workers d !! i = Some w -> producer_cursor d - cursor w <= K) /\
  (forall s x, gating d < s -> published d !! Z.to_nat s = Some x -> read d s = Some x).
Proof.
  intros HK d.
  assert (Hinv : inv consume_raises d) by exact (inv_reachable _ _ consume_raises K h acts HK).
  assert (Hcap : capacity d = K) by exact (capacity_run _ _ consume_raises acts (init K h)).
  destruct Hinv as (_ & _ & _ & _ & Hg & Hs & _).
  split; [exact Hcap|]. split; [lia|]. split.
  - intros i w Hi.
    assert (Hgw : gating d <= cursor w)
      by (exact (Forall_lookup_1 _ _ _ _ (fold_min_le_cursor _ (producer_cursor d) (workers d)) Hi)).
    lia.
  - intros s x Hsx Hx. unfold read. rewrite (Hs s x Hsx Hx). done.
Qed.

Lemma c2_backpressure_witness :
  0 < 4 /\
  producer_cursor (run (raises_on mult7) (init 4 false) [ARegister; AProduce [1; 2; 3]; AProduce [4]])
  - gating (run (raises_on mult7) (init 4 false) [ARegister; AProduce [1; 2; 3]; AProduce [4]]) <= 4.
Proof.
  split; [lia|].
  destruct (c2_backpressure (raises_on mult7) 4 false
              [ARegister; AProduce [1; 2; 3]; AProduce [4]] ltac:(lia)) as (_ & Hb & _).
  exact Hb.
Defined.

(** C5 (lifecycle misuse). In every state reached from a fresh
    dispatcher: [register_consumer] outside NEW and [produce] in DRAINING
    or CLOSED are misuses that leave the state unchanged; once a
    [produce] succeeds the dispatcher never returns to NEW, whatever
    follows; [close()] in CLOSED is a no-op, and a second [close()] after
    a first one is a no-op. *)
Theorem c5_lifecycle_misuse {A E : Type}
    (consume_raises : nat -> list (option A) -> option E)
    (K : Z) (h : bool) (acts : list (action A)) (items : list A) :
  0 < K ->
  let d := run consume_raises (init K h) acts in
  (state d <> NEW -> register_consumer d = (Misuse, d)) /\
  (state d = DRAINING \/ state d = CLOSED -> produce d items = (Misuse, d)) /\
  (fst (produce d items) = Done ->
     forall acts', state (run consume_raises (snd (produce d items)) acts') <> NEW) /\
  (state d = CLOSED -> close consume_raises d = (Done, d)) /\
  (let d1 := snd (close consume_raises d) in close consume_raises d1 = (Done, d1)).
Proof.
  intros HK d.
  assert (Hinv : inv consume_raises d) by exact (inv_reachable _ _ consume_raises K h acts HK).
  split.
  { intros Hn. unfold register_consumer. destruct (state d); [done| | |]; reflexivity. }
  split.
  { intros [Hs|Hs]; unfold produce; rewrite Hs; reflexivity. }
  split.
  { intros Hdone acts'. apply not_new_run.
    revert Hdone. unfold produce. destruct (state d); simpl; try discriminate;
      destruct (_ <? _); simpl; discriminate. }
  split; [exact (close_when_closed _ _ consume_raises d Hinv)|].
  cbv zeta.
  destruct (close_closed _ _ consume_raises d Hinv) as (_ & Hst).
  exact (close_when_closed _ _ consume_raises _ (inv_close _ _ consume_raises d Hinv) Hst).
Qed.

Lemma c5_lifecycle_misuse_witness :
  0 < 4 /\
  register_consumer (run (raises_on mult7) (init 4 false) [ARegister; AProduce [1]]) =
  (Misuse, run (raises_on mult7) (init 4 false) [ARegister; AProduce [1]]).
Proof.
  split; [lia|].
  destruct (c5_lifecycle_misuse (raises_on mult7) 4 false [ARegister; AProduce [1]] []
              ltac:(lia)) as (Hr & _).
  apply Hr. vm_compute. discriminate.
Defined.

(** C6 (error-handler routing). In every state reached from a fresh
    dispatcher, one iteration of a consumer [i] that is behind hands it
    the non-empty batch of the published items after its cursor; if
    [consume] raises [e] on it, exactly the triple [(i, batch, e)] is
    appended to the handler's calls when a handler is configured, to the
    default log otherwise; either way the consumer's cursor moves to the
    producer cursor, past the batch, the other consumers are untouched,
    and the next iteration of [i] does not hand it the batch again (it
    waits). Over the whole execution, the failures logged for each
    consumer are exactly its raising batches with their errors, and with
    a handler nothing reaches the default log. *)
Theorem c6_error_handler_routing {A E : Type}
    (consume_raises : nat -> list (option A) -> option E)
    (K : Z) (h : bool) (acts : list (action A)) (i : nat) (w : worker A) :
  0 < K ->
  let d := run consume_raises (init K h) acts in
  workers d !! i = Some w -> cursor w < producer_cursor d ->
  let batch := read_batch d (cursor w + 1) (Z.to_nat (producer_cursor d - cursor w)) in
  let d' := snd (worker_step consume_raises d i) in
  batch = map Some (take (Z.to_nat (producer_cursor d - cursor w))
                         (drop (Z.to_nat (cursor w + 1)) (published d))) /\
  batch <> [] /\
  (forall e, consume_raises i batch = Some e ->
     if has_handler d
     then handler_calls d' = handler_calls d ++ [(i, batch, e)] /\ error_log d' = error_log d
     else error_log d' = error_log d ++ [(i, batch, e)] /\ handler_calls d' = handler_calls d) /\
  (consume_raises i batch = None ->
     handler_calls d' = handler_calls d /\ error_log d' = error_log d) /\
  (exists w', workers d' !! i = Some w' /\ cursor w' = producer_cursor d /\
              delivered w' = delivered w ++ [batch]) /\
  (forall j, j <> i -> workers d' !! j = workers d !! j) /\
  producer_cursor d' = producer_cursor d /\
  worker_step consume_raises d' i = (Blocked, d') /\
  (forall j wj, workers d !! j = Some wj ->
     filter (fun t : nat * list (option A) * E => t.1.1 = j) (failure_log d) =
     map (fun be => (j, be.1, be.2)) (raised consume_raises j (delivered wj))) /\
  (has_handler d = true -> error_log d = []).
Proof.
  intros HK d Hwi Hlt batch d'.
  assert (Hinv : inv consume_raises d) by exact (inv_reachable _ _ consume_raises K h acts HK).
  assert (Hd' : d' = mkDisruptor (capacity d) (ring d) (producer_cursor d)
             (<[i := mkWorker (producer_cursor d) (delivered w ++ [batch]) (close_calls w)]> (workers d))
             (state d) (has_handler d)
             (handler_calls d ++ (if has_handler d then
                map (fun be => (i, be.1, be.2)) (raised consume_raises i [batch]) else []))
             (error_log d ++ (if has_handler d then [] else
                map (fun be => (i, be.1, be.2)) (raised consume_raises i [batch])))
             (published d))
    by (unfold d'; rewrite (worker_step_behind _ _ consume_raises d i w Hwi Hlt); reflexivity).
  assert (Hi : (i < length (workers d))%nat) by (eapply lookup_lt_Some; exact Hwi).
  assert (Hw' : workers d' !! i =
                Some (mkWorker (producer_cursor d) (delivered w ++ [batch]) (close_calls w)))
    by (rewrite Hd'; apply list_lookup_insert_eq; exact Hi).
  split; [exact (batch_published _ _ consume_raises d i w Hinv Hwi Hlt)|].
  split.
  { intros Hb. apply (f_equal length) in Hb. unfold batch in Hb.
    rewrite length_read_batch in Hb. simpl in Hb. lia. }
  split.
  { intros e He. rewrite Hd'. unfold raised. simpl. rewrite He. simpl.
    destruct (has_handler d); rewrite app_nil_r; split; reflexivity. }
  split.
  { intros He. rewrite Hd'. unfold raised. simpl. rewrite He. simpl.
    destruct (has_handler d); rewrite !app_nil_r; split; reflexivity. }
  split; [eexists; split; [exact Hw'|split; reflexivity]|].
  split; [intros j Hj; rewrite Hd'; simpl; apply list_lookup_insert_ne; congruence|].
  split; [rewrite Hd'; reflexivity|].
  split.
  { unfold worker_step at 1. rewrite Hw'.
    assert (Hpc : producer_cursor d' = producer_cursor d) by (rewrite Hd'; reflexivity).
    rewrite Hpc. simpl. rewrite Z.leb_refl. reflexivity. }
  destruct Hinv as (_ & _ & _ & _ & _ & _ & _ & _ & _ & Hh & Hlog).
  split; [exact Hlog|].
  intros Ht. rewrite Ht in Hh. exact Hh.
Qed.

Lemma c6_error_handler_routing_witness :
  0 < 4 /\
  workers (run (raises_on mult7) (init 4 true) [ARegister; AProduce [5; 7]]) !! 0%nat =
    Some (mkWorker (-1) [] 0%nat) /\
  handler_calls (snd (worker_step (raises_on mult7)
                   (run (raises_on mult7) (init 4 true) [ARegister; AProduce [5; 7]]) 0)) =
  [(0%nat, [Some 5; Some 7], tt)].
Proof.
  split; [lia|]. split; [vm_compute; reflexivity|].
  destruct (c6_error_handler_routing (raises_on mult7) 4 true [ARegister; AProduce [5; 7]]
              0%nat (mkWorker (-1) [] 0%nat) ltac:(lia) ltac:(vm_compute; reflexivity)
              ltac:(vm_compute; reflexivity)) as (_ & _ & Hr & _).
  specialize (Hr tt ltac:(vm_compute; reflexivity)).
  destruct Hr as [Hr _]. rewrite Hr. vm_compute. reflexivity.
Defined.

(** C9, as stated: the scenario S5 produces [0..99] and gets exactly 15
    handler calls with the multiples of 7, exactly 14 without [0]. A
    valid execution refutes both: when [0..14] are published before the
    consumer first runs, its first batch holds [0], [7] and [14] and
    raises once, and when the consumer then runs after every
    publication, the run ends in CLOSED with 13 handler calls under
    either convention. *)
Lemma c9_counterexample :
  published (run (raises_on mult7) (init 16 true) sched_burst) = seqZ 0 100 /\
  state (run (raises_on mult7) (init 16 true) sched_burst) = CLOSED /\
  length (handler_calls (run (raises_on mult7) (init 16 true) sched_burst)) = 13%nat /\
  published (run (raises_on mult7_nonzero) (init 16 true) sched_burst) = seqZ 0 100 /\
  state (run (raises_on mult7_nonzero) (init 16 true) sched_burst) = CLOSED /\
  length (handler_calls (run (raises_on mult7_nonzero) (init 16 true) sched_burst)) = 13%nat.
Proof. vm_compute. repeat split; reflexivity. Qed.

(** C9, amended. With one consumer and a handler, in every state reached
    from a fresh dispatcher, the handler has been called once per
    delivered batch holding a flagged item; this is at most the number of
    flagged items among those the consumer has been handed, and equal to
    it when every batch holds one item. *)
Theorem c9_handler_count (p : Z -> bool) (K : Z) (acts : list (action Z)) (w : worker Z) :
  0 < K ->
  let d := run (raises_on p) (init K true) acts in
  workers d = [w] ->
  length (handler_calls d) = length (filter (fun b => flagged p b = true) (delivered w)) /\
  (length (handler_calls d) <=
     length (filter (fun x => p x = true) (take (Z.to_nat (cursor w + 1)) (published d))))%nat /\
  (Forall (fun b => length b = 1%nat) (delivered w) ->
   length (handler_calls d) =
     length (filter (fun x => p x = true) (take (Z.to_nat (cursor w + 1)) (published d)))).
Proof.
  intros HK d Hws.
  assert (Hinv : inv (raises_on p) d) by exact (inv_reachable _ _ (raises_on p) K true acts HK).
  assert (Hli : log_indexed d)
    by exact (log_indexed_run _ _ (raises_on p) acts _ (log_indexed_init _ _ K true)).
  assert (Hh : has_handler d = true) by exact (has_handler_run _ _ (raises_on p) acts (init K true)).
  destruct Hinv as (_ & _ & _ & Hw & _ & _ & _ & _ & _ & Hhe & Hlog).
  assert (H0 : workers d !! 0%nat = Some w) by (rewrite Hws; reflexivity).
  destruct (Forall_lookup_1 _ _ _ _ Hw H0) as (_ & Hdl & _).
  specialize (Hlog 0%nat w H0).
  unfold failure_log in Hlog. rewrite Hh in Hlog, Hhe. cbv iota in Hlog, Hhe.
  unfold log_indexed in Hli. rewrite Hws, Hhe, app_nil_r in Hli. simpl in Hli.
  rewrite (filter_all_idx _ _ _ Hli) in Hlog.
  assert (Hc : length (handler_calls d) = length (filter (fun b => flagged p b = true) (delivered w)))
    by (rewrite Hlog, length_map; apply raised_length).
  rewrite <- (filter_map_Some p), <- Hdl.
  split; [exact Hc|]. split.
  - rewrite Hc. apply batches_count_le.
  - intros H1. rewrite Hc. apply batches_count_singleton, H1.
Qed.

Lemma c9_handler_count_witness :
  length (handler_calls (run (raises_on mult7) (init 16 true) sched_lockstep)) = 15%nat /\
  length (handler_calls (run (raises_on mult7_nonzero) (init 16 true) sched_lockstep)) = 14%nat.
Proof.
  split.
  - destruct (c9_handler_count mult7 16 sched_lockstep
                (mkWorker 99 (map (fun x => [Some x]) (seqZ 0 100)) 1%nat)
                ltac:(lia) ltac:(vm_compute; reflexivity)) as (_ & _ & H).
    rewrite H.
    + vm_compute. reflexivity.
    + apply Forall_map_intro. apply Forall_lookup_2. intros. reflexivity.
  - destruct (c9_handler_count mult7_nonzero 16 sched_lockstep
                (mkWorker 99 (map (fun x => [Some x]) (seqZ 0 100)) 1%nat)
                ltac:(lia) ltac:(vm_compute; reflexivity)) as (_ & _ & H).
    rewrite H.
    + vm_compute. reflexivity.
    + apply Forall_map_intro. apply Forall_lookup_2. intros. reflexivity.
Defined.

End DisruptorClaims.


(* ===================================================================== *)
(** ** More properties of [BatchJsonConsumer] *)
(* ===================================================================== *)

Module BatchJsonConsumeProofs.
Import BatchJson BatchJsonProofs.

(** [consume(elements)] with [batch_size = B >= 1], in every world, when
    it returns normally: of the [n] items in the buffer followed by the
    elements, it hands exactly [n / B] batches of [B] items each to
    [_process_batch], taking the items in order, and each is written as
    one Parquet file; it leaves the last [n mod B] items in the buffer;
    [file_counter] goes up by [n / B] and [processed_count] by
    [(n / B) * B]. *)
Theorem consume_writes_full_batches {A : Type} (env : nat -> attempt_env) (fuel : nat)
    (c c' : consumer A) (elements : list A) :
  1 <= batch_size c ->
  consume env fuel c elements = (Returned, c') ->
  let n := length (batch_buffer c ++ elements) in
  let B := Z.to_nat (batch_size c) in
  exists bs, written c' = written c ++ bs /\ passed c' = passed c ++ bs /\
    length bs = (n / B)%nat /\
    Forall (fun b => length b = B) bs /\
    concat bs ++ batch_buffer c' = batch_buffer c ++ elements /\
    length (batch_buffer c') = (n mod B)%nat /\
    file_counter c' = file_counter c + Z.of_nat (n / B) /\
    processed_count c' = processed_count c + Z.of_nat (n / B * B).
Proof.
  intros HB Hrun n B. unfold consume in Hrun.
  destruct (drain_returned A env (batch_size c) fuel (set_buffer c (batch_buffer c ++ elements))
              c' HB eq_refl Hrun)
    as (bs & Hw & Hp & Hf & Hc & Hpc & Hfc & Hl & _).
  simpl in Hw, Hp, Hc, Hpc, Hfc.
  assert (Hf' : Forall (fun b => length b = B) bs)
    by (eapply Forall_impl; [exact Hf|]; intros b Hb; cbv beta in Hb; unfold B; lia).
  assert (Hlen : n = (length bs * B + length (batch_buffer c'))%nat).
  { unfold n. rewrite <- Hc, length_app, (length_concat_const A B bs Hf'). done. }
  assert (Hq : length bs = (n / B)%nat)
    by (apply (Nat.div_unique n B (length bs) (length (batch_buffer c'))); [unfold B; lia|lia]).
  assert (Hr : length (batch_buffer c') = (n mod B)%nat)
    by (apply (Nat.mod_unique n B (length bs) (length (batch_buffer c'))); [unfold B; lia|lia]).
  exists bs. split; [done|]. split; [done|]. split; [done|]. split; [done|].
  split; [done|]. split; [done|]. split.
  - rewrite Hfc, Hq. done.
  - rewrite Hpc, (length_concat_const A B bs Hf'), Hq. done.
Qed.

Lemma consume_writes_full_batches_witness :
  consume all_ok 8 (init 3) [1;2;3;4;5;6;7]%nat =
    (Returned, snd (consume all_ok 8 (init 3) [1;2;3;4;5;6;7]%nat)) /\
  length (written (snd (consume all_ok 8 (init 3) [1;2;3;4;5;6;7]%nat))) = 2%nat.
Proof.
  assert (H : consume all_ok 8 (init 3) [1;2;3;4;5;6;7]%nat =
                (Returned, snd (consume all_ok 8 (init 3) [1;2;3;4;5;6;7]%nat)))
    by reflexivity.
  split; [exact H|].
  destruct (consume_writes_full_batches all_ok 8 (init 3) _ [1;2;3;4;5;6;7]%nat
              ltac:(simpl; lia) H) as (bs & Hw & _ & Hl & _).
  rewrite Hw, length_app, Hl. reflexivity.
Defined.

(** Over a run of [BatchJsonConsumer] ([consume] calls from [__init__],
    then [close()]) in every world, whatever raises: [processed_count]
    is the number of items written, and [file_counter] is the number of
    Parquet files written plus the number of writes that failed after a
    successful conversion (a failed write is not rolled back, so the
    file numbers skip one). *)
Theorem file_counter_counts_files {A : Type} (env : nat -> attempt_env) (B : Z) (fuel : nat)
    (calls : list (list A)) :
  let c1 := snd (consume_all env fuel (init B) calls) in
  counters_ok env c1 /\ counters_ok env (snd (close env c1)).
Proof.
  intros c1.
  assert (H0 : counters_ok env (init (A := A) B))
    by (unfold counters_ok, failed_writes; simpl; lia).
  pose proof (consume_all_counters A env fuel calls (init B) H0) as H1. fold c1 in H1.
  split; [done|]. apply close_counters. done.
Qed.

(** When the first write fails, three invocations leave two files and
    [file_counter = 3]. *)
Lemma file_counter_counts_files_witness :
  let env := fun n => mkAttemptEnv true (negb (Nat.eqb n 0)) true in
  let c := snd (close env (snd (consume_all env 5 (init 2) [[1;2;3];[4;5]]%nat))) in
  file_counter c = 3 /\ length (written c) = 2%nat.
Proof.
  intros env c.
  destruct (file_counter_counts_files env 2 5 [[1;2;3];[4;5]]%nat) as (_ & _ & Hf).
  fold c in Hf. rewrite Hf. split; vm_compute; reflexivity.
Defined.

End BatchJsonConsumeProofs.
